(** * The sidecar bridge of capslap

    A shallow embedding of [class Sidecar] (the Electron main-process bridge to
    the Rust worker): the line handler installed by [start], the error
    classification [createFriendlyError], the promise chain of
    [writeWithLock] and the public [call].

    The bridge keeps two JavaScript [Map]s keyed by request id and one promise
    chain; they are modelled by stdpp finite maps and by the list of the
    chain's links.  Everything asynchronous (the arrival of a line, the
    reaction of a chain link, the callback of [stdin.write], the 5 ms timer)
    is an event of a deterministic step function, so that every interleaving
    of the event loop is a list of events. *)

From Stdlib Require QArith Qcanon.
From stdpp Require Import base option numbers strings pretty list gmap.

Local Open Scope string_scope.
Local Open Scope list_scope.

(** ** Strings *)

(** [String.prototype.includes]: [needle] occurs somewhere in [s]. *)
Fixpoint includes (needle s : string) : bool :=
  String.prefix needle s ||
  match s with
  | EmptyString => false
  | String _ rest => includes needle rest
  end.

(** The line feed that ends a request. *)
Definition LF : string := String (Ascii.ascii_of_nat 10) EmptyString.

(** ** Errors *)

(** A JavaScript [Error], as far as the bridge and its callers look at it. *)
Record Error := { name : string; message : string }.

(** [new Error(msg)] *)
Definition new_Error (msg : string) : Error := {| name := "Error"; message := msg |}.

(** The body of [createFriendlyError].  The argument is only used through its
    [includes] method and once in a template literal, so the body takes these
    two: [inc t] is [errorMessage.includes(t)] and [shown] is what
    [`${errorMessage}`] evaluates to. *)
Definition friendly (inc : string -> bool) (shown : string) : Error :=
  if inc "API key not provided" || inc "You didn't provide an API key" then
    {| name := "API_KEY_MISSING";
       message := "OpenAI API key is not configured. Add it in settings for better transcription quality." |}
  else if inc "401 Unauthorized" || inc "Unauthorized" then
    {| name := "API_KEY_INVALID";
       message := "Invalid OpenAI API key. Please check the key in settings." |}
  else if inc "No whisper models found" || inc "No local whisper models available" then
    {| name := "NO_LOCAL_MODELS";
       message := "Local models not found. Using online transcription via OpenAI API." |}
  else if inc "whisper.cpp binary not found" || inc "FFmpeg not found" then
    {| name := "BINARY_NOT_FOUND";
       message := "System components not found. Try reinstalling the application." |}
  else if inc "Network" || inc "fetch" || inc "ENOTFOUND" then
    {| name := "NETWORK_ERROR";
       message := "Internet connection problem. Check your connection and try again." |}
  else if inc "rate limit" || inc "Too Many Requests" then
    {| name := "RATE_LIMIT";
       message := "OpenAI API rate limit exceeded. Try later or check your plan." |}
  else if inc "insufficient_quota" || inc "quota" then
    {| name := "QUOTA_EXCEEDED";
       message := "OpenAI API quota exhausted. Top up your account or use local models." |}
  else if inc "file not found" || inc "No such file" then
    {| name := "FILE_NOT_FOUND";
       message := "File not found. Make sure the video file exists and is accessible." |}
  else if inc "dyld: Library not loaded" || inc "image not found" then
    {| name := "BINARY_DEP_MISSING";
       message := "Media tools are missing system libraries. Use static ffmpeg/ffprobe builds or reinstall." |}
  else
    {| name := "UNKNOWN_ERROR";
       message := "An error occurred: " +:+ shown |}.

(** [createFriendlyError(errorMessage: string)] *)
Definition createFriendlyError (errorMessage : string) : Error :=
  friendly (fun t => includes t errorMessage) errorMessage.

(** ** The taxonomy as a table *)

Inductive ErrorKind :=
  | CredentialsMissing
  | CredentialsInvalid
  | LocalResourceMissing
  | DependencyMissing
  | NetworkFailure
  | RateLimited
  | QuotaExhausted
  | InputNotFound
  | NativeDependencyMissing
  | Unknown.

(** The [name] the bridge gives to an error of each kind (what callers such as
    [showErrorToast] branch on). *)
Definition kind_name (k : ErrorKind) : string :=
  match k with
  | CredentialsMissing => "API_KEY_MISSING"
  | CredentialsInvalid => "API_KEY_INVALID"
  | LocalResourceMissing => "NO_LOCAL_MODELS"
  | DependencyMissing => "BINARY_NOT_FOUND"
  | NetworkFailure => "NETWORK_ERROR"
  | RateLimited => "RATE_LIMIT"
  | QuotaExhausted => "QUOTA_EXCEEDED"
  | InputNotFound => "FILE_NOT_FOUND"
  | NativeDependencyMissing => "BINARY_DEP_MISSING"
  | Unknown => "UNKNOWN_ERROR"
  end.

Definition taxonomy := list (ErrorKind * list string).

(** Some trigger of the row occurs in the text. *)
Definition triggered (triggers : list string) (s : string) : bool :=
  existsb (fun t => includes t s) triggers.

(** The rows are tried in order, the first row with a trigger in the text
    wins, and a text that triggers no row is [Unknown]. *)
Fixpoint classify (table : taxonomy) (s : string) : ErrorKind :=
  match table with
  | [] => Unknown
  | (k, triggers) :: rest => if triggered triggers s then k else classify rest s
  end.

(** The trigger substrings that [createFriendlyError] tests, row by row. *)
Definition code_taxonomy : taxonomy :=
  [ (CredentialsMissing, ["API key not provided"; "You didn't provide an API key"]);
    (CredentialsInvalid, ["401 Unauthorized"; "Unauthorized"]);
    (LocalResourceMissing, ["No whisper models found"; "No local whisper models available"]);
    (DependencyMissing, ["whisper.cpp binary not found"; "FFmpeg not found"]);
    (NetworkFailure, ["Network"; "fetch"; "ENOTFOUND"]);
    (RateLimited, ["rate limit"; "Too Many Requests"]);
    (QuotaExhausted, ["insufficient_quota"; "quota"]);
    (InputNotFound, ["file not found"; "No such file"]);
    (NativeDependencyMissing, ["dyld: Library not loaded"; "image not found"]) ].

(** The taxonomy in the words of the specification (section 7): the same
    rows, with the trigger substrings as the table there prints them. *)
Definition spec_taxonomy : taxonomy :=
  [ (CredentialsMissing, ["API key not provided"; "didn't provide an API key"]);
    (CredentialsInvalid, ["401 Unauthorized"; "Unauthorized"]);
    (LocalResourceMissing, ["No whisper models found"; "No local whisper models available"]);
    (DependencyMissing, ["whisper.cpp binary not found"; "FFmpeg not found"]);
    (NetworkFailure, ["Network"; "fetch"; "ENOTFOUND"]);
    (RateLimited, ["rate limit"; "Too Many Requests"]);
    (QuotaExhausted, ["insufficient_quota"; "quota"]);
    (InputNotFound, ["file not found"; "No such file"]);
    (NativeDependencyMissing, ["Library not loaded"; "image not found"]) ].

(** ** JSON values *)

#[local] Set Warnings "-register-all".

(** What [JSON.parse] can return.  A number is a rational (every finite
    double is one; all that the bridge asks of a number is whether it is
    zero); an object is the list of its members in source order. *)
Inductive json :=
  | JNull
  | JBool (b : bool)
  | JNum (q : Qcanon.Qc)
  | JStr (s : string)
  | JArr (items : list json)
  | JObj (members : list (string * json)).

(** A JavaScript value read out of a message: [None] is [undefined]. *)
Definition value := option json.

(** The built-ins of the JavaScript runtime that the bridge calls.  They are
    not part of the repository; the bridge is verified for every runtime that
    provides them.  [JSON_parse] returns [None] where [JSON.parse] throws a
    [SyntaxError].  [JSON.stringify] without an indentation argument never
    emits a line feed (inside strings it is escaped). *)
Class Builtins := {
  JSON_parse : string -> option json;
  JSON_stringify : json -> string;
  Number_toString : Qcanon.Qc -> string;
  JSON_stringify_one_line : forall v, includes LF (JSON_stringify v) = false
}.

(** Own member [key] of an object; of two members with one key
    [JSON.parse] keeps the later one. *)
Fixpoint member (key : string) (members : list (string * json)) : value :=
  match members with
  | [] => None
  | (k, v) :: rest =>
      match member key rest with
      | Some later => Some later
      | None => if String.eqb k key then Some v else None
      end
  end.

(** JavaScript truthiness. *)
Definition truthy (v : value) : bool :=
  match v with
  | None | Some JNull => false
  | Some (JBool b) => b
  | Some (JNum q) => negb (Qcanon.Qc_eq_bool q (Qcanon.Q2Qc (QArith_base.Qmake 0 1)))
  | Some (JStr s) => negb (String.eqb s "")
  | Some (JArr _) | Some (JObj _) => true
  end.

(** [v === 'text'] *)
Definition strict_equals (v : value) (text : string) : bool :=
  match v with
  | Some (JStr s) => String.eqb s text
  | _ => false
  end.

(** [v !== undefined] *)
Definition defined (v : value) : bool :=
  match v with Some _ => true | None => false end.

Fixpoint join (sep : string) (parts : list string) : string :=
  match parts with
  | [] => ""
  | [p] => p
  | p :: rest => p +:+ sep +:+ join sep rest
  end.

(** [String(v)], which is what a template literal applies. *)
Fixpoint ToString `{Builtins} (v : json) : string :=
  match v with
  | JNull => "null"
  | JBool b => if b then "true" else "false"
  | JNum q => Number_toString q
  | JStr s => s
  | JArr items =>
      join "," (map (fun e => match e with JNull => "" | _ => ToString e end) items)
  | JObj _ => "[object Object]"
  end.

(** ** Completions and the bridge's state *)

(** How a JavaScript computation ends: normally, or by throwing. *)
Inductive completion (A : Type) :=
  | Normal (a : A)
  | Throw (e : Error).
Arguments Normal {A} a.
Arguments Throw {A} e.

(** The [params] of a call is of type [any].  All that [call] does with it
    is to hand it to [JSON.stringify] inside the request object, so a value
    is given by what [JSON.stringify] makes of it: the member is serialised
    as the JSON value [v]; or the member is left out ([undefined], a
    function, a symbol); or [JSON.stringify] throws [err] (a cyclic
    structure, a BigInt, a [toJSON] method that throws). *)
Inductive any :=
  | Data (v : json)
  | Omitted
  | Unserialisable (err : Error).

Coercion Data : json >-> any.

(** The errors that the runtime throws.  The handler only logs what it
    catches, so their messages are left empty. *)
Definition SyntaxError : Error := {| name := "SyntaxError"; message := "" |}.

Definition TypeError : Error := {| name := "TypeError"; message := "" |}.

(** A progress handler supplied by a caller.  It is given the whole message;
    all the bridge sees of it is whether it returns or throws (a handler is
    taken not to call back into the bridge while it runs). *)
Definition callback := json -> completion unit.

(** How a promise returned by [call] was settled. *)
Inductive settlement :=
  | Resolved (v : value)
  | Rejected (e : Error).

(** The promise that [writeWithLock] makes for one write, i.e. one link of
    the [writeLock] chain: its [then] handler has not run yet ([Waiting]), it
    has called [stdin.write] and waits for the callback ([Writing]), the
    write succeeded and the 5 ms timer runs ([Flushing]), or the promise is
    fulfilled or rejected. *)
Inductive link_state :=
  | Waiting
  | Writing
  | Flushing
  | Fulfilled
  | Failed (e : Error).

(** Link [k] belongs to the [k]-th [call]: [lk_id] is the id that the
    [catch] handler of that call closes over, [lk_data] the request line. *)
Record link := { lk_id : string; lk_data : string; lk_state : link_state }.

(** The fields of the [Sidecar] object, and the part of the world it acts on:
    - [proc_available]: [this.proc && this.proc.stdin];
    - [pending]: the id of a request and the [resolve]/[reject] pair of its
      promise, named by the promise's index in [promises];
    - [progressCallbacks];
    - [writeLock]: the promise chain, oldest link first; [this.writeLock] is
      the last link (or the initial [Promise.resolve()] for the empty chain);
    - [promises]: the promises returned by [call], in creation order, [None]
      while pending;
    - [stdin]: the chunks passed to [proc.stdin.write], in order;
    - [delivered]: the invocations of progress handlers, in order. *)
Record Sidecar := {
  proc_available : bool;
  pending : gmap string nat;
  progressCallbacks : gmap string callback;
  writeLock : list link;
  promises : list (option settlement);
  stdin : list string;
  delivered : list (value * json)
}.

Definition with_pending (f : gmap string nat -> gmap string nat) (σ : Sidecar) : Sidecar :=
  {| proc_available := proc_available σ; pending := f (pending σ);
     progressCallbacks := progressCallbacks σ; writeLock := writeLock σ;
     promises := promises σ; stdin := stdin σ; delivered := delivered σ |}.

Definition with_progressCallbacks
    (f : gmap string callback -> gmap string callback) (σ : Sidecar) : Sidecar :=
  {| proc_available := proc_available σ; pending := pending σ;
     progressCallbacks := f (progressCallbacks σ); writeLock := writeLock σ;
     promises := promises σ; stdin := stdin σ; delivered := delivered σ |}.

Definition with_writeLock (f : list link -> list link) (σ : Sidecar) : Sidecar :=
  {| proc_available := proc_available σ; pending := pending σ;
     progressCallbacks := progressCallbacks σ; writeLock := f (writeLock σ);
     promises := promises σ; stdin := stdin σ; delivered := delivered σ |}.

Definition with_promises
    (f : list (option settlement) -> list (option settlement)) (σ : Sidecar) : Sidecar :=
  {| proc_available := proc_available σ; pending := pending σ;
     progressCallbacks := progressCallbacks σ; writeLock := writeLock σ;
     promises := f (promises σ); stdin := stdin σ; delivered := delivered σ |}.

Definition with_stdin (f : list string -> list string) (σ : Sidecar) : Sidecar :=
  {| proc_available := proc_available σ; pending := pending σ;
     progressCallbacks := progressCallbacks σ; writeLock := writeLock σ;
     promises := promises σ; stdin := f (stdin σ); delivered := delivered σ |}.

Definition with_delivered
    (f : list (value * json) -> list (value * json)) (σ : Sidecar) : Sidecar :=
  {| proc_available := proc_available σ; pending := pending σ;
     progressCallbacks := progressCallbacks σ; writeLock := writeLock σ;
     promises := promises σ; stdin := stdin σ; delivered := f (delivered σ) |}.

(** The object after the constructor: empty maps, [writeLock] the resolved
    promise. *)
Definition init (available : bool) : Sidecar :=
  {| proc_available := available; pending := ∅; progressCallbacks := ∅;
     writeLock := []; promises := []; stdin := []; delivered := [] |}.

(** [resolve] and [reject] of promise [n]: they settle a pending promise and
    do nothing to a settled one. *)
Definition settle (n : nat) (o : settlement) (ps : list (option settlement))
    : list (option settlement) :=
  match ps !! n with
  | Some None => <[n := Some o]> ps
  | _ => ps
  end.

(** [Map.prototype.get] and [delete] with an arbitrary value as key: the keys
    of both maps are strings, so only a string can be found. *)
Definition map_get {V} (m : gmap string V) (key : value) : option V :=
  match key with
  | Some (JStr s) => m !! s
  | _ => None
  end.

Definition map_delete {V} (key : value) (m : gmap string V) : gmap string V :=
  match key with
  | Some (JStr s) => delete s m
  | _ => m
  end.

(** ** A state and exception monad for the handler *)

Definition M (A : Type) := Sidecar -> completion A * Sidecar.

Definition ret {A} (a : A) : M A := fun σ => (Normal a, σ).

Definition bind {A B} (m : M A) (f : A -> M B) : M B :=
  fun σ => match m σ with
           | (Normal a, σ') => f a σ'
           | (Throw e, σ') => (Throw e, σ')
           end.

Definition throw {A} (e : Error) : M A := fun σ => (Throw e, σ).

Definition lift {A} (c : completion A) : M A := fun σ => (c, σ).

Definition gets {A} (f : Sidecar -> A) : M A := fun σ => (Normal (f σ), σ).

Definition modify (f : Sidecar -> Sidecar) : M unit := fun σ => (Normal tt, f σ).

(** [try { body } catch (err) { console.error(...) }] *)
Definition try_catch (body : M unit) : Sidecar -> Sidecar :=
  fun σ => (body σ).2.

#[global] Instance M_ret : MRet M := @ret.
#[global] Instance M_bind : MBind M := fun A B f m => bind m f.

(** [a && b] used as a condition: [b] is evaluated only if [a] is truthy. *)
Definition andM (a b : M bool) : M bool :=
  bind a (fun x => if x then b else ret false).

(** ** The bridge *)

Section Bridge.
Context `{Builtins}.

(** [JSON.parse(line)] *)
Definition parse (line : string) : M json :=
  match JSON_parse line with
  | Some msg => ret msg
  | None => throw SyntaxError
  end.

(** [msg.key] for the four properties the handler reads ([event], [id],
    [result], [error]), on a message other than [null]: an object answers
    with its own member; a number, a string, a boolean or an array has no
    property of these names. *)
Definition field (msg : json) (key : string) : value :=
  match msg with
  | JObj members => member key members
  | _ => None
  end.

(** Reading a property of [null] throws a [TypeError]. *)
Definition prop (msg : json) (key : string) : M value :=
  match msg with
  | JNull => throw TypeError
  | _ => ret (field msg key)
  end.

(** [this.createFriendlyError(msg.error)], where [msg.error] is whatever the
    worker sent: a string is searched by [String.prototype.includes]; an
    array by [Array.prototype.includes], which looks for an element equal to
    the trigger; any other truthy value has no [includes] method and the
    call throws a [TypeError]. *)
Definition call_createFriendlyError (errorMessage : value) : completion Error :=
  match errorMessage with
  | Some (JStr s) => Normal (createFriendlyError s)
  | Some (JArr items) =>
      Normal (friendly (fun t => existsb (fun e => strict_equals (Some e) t) items)
                       (ToString (JArr items)))
  | _ => Throw TypeError
  end.

(** [callback(msg)] *)
Definition invoke (id : value) (cb : callback) (msg : json) : M unit :=
  modify (with_delivered (fun log => log ++ [(id, msg)]));;
  lift (cb msg).

(** [this.pending.get(id)?.resolve(v)] and [this.pending.get(id)?.reject(e)] *)
Definition settle_slot (slot : option nat) (o : settlement) : M unit :=
  match slot with
  | Some n => modify (with_promises (settle n o))
  | None => ret tt
  end.

(** The body of the [try] block of the ['line'] handler. *)
Definition handle_line (line : string) : M unit :=
  msg ← parse line;
  isProgress ← andM (event ← prop msg "event"; ret (strict_equals event "progress"))
                    (id ← prop msg "id"; ret (truthy id));
  if isProgress : bool then
    id ← prop msg "id";
    found ← gets (fun σ => map_get (progressCallbacks σ) id);
    match found with
    | Some cb => invoke id cb msg
    | None => ret tt
    end
  else
    isResult ← andM (result ← prop msg "result"; ret (defined result))
                    (id ← prop msg "id"; ret (truthy id));
    if isResult : bool then
      id ← prop msg "id";
      result ← prop msg "result";
      slot ← gets (fun σ => map_get (pending σ) id);
      settle_slot slot (Resolved result);;
      modify (with_pending (map_delete id));;
      modify (with_progressCallbacks (map_delete id))
    else
      isError ← andM (error ← prop msg "error"; ret (truthy error))
                     (id ← prop msg "id"; ret (truthy id));
      if isError : bool then
        error ← prop msg "error";
        friendlyError ← lift (call_createFriendlyError error);
        id ← prop msg "id";
        slot ← gets (fun σ => map_get (pending σ) id);
        settle_slot slot (Rejected friendlyError);;
        modify (with_pending (map_delete id));;
        modify (with_progressCallbacks (map_delete id))
      else ret tt.

(** The ['line'] handler: the body inside [try]/[catch]; the [catch] block
    only logs. *)
Definition on_line (line : string) : Sidecar -> Sidecar :=
  try_catch (handle_line line).

(** *** The write chain *)

(** The state of the promise that link [k] was chained on: the initial
    [Promise.resolve()] for the first link, the previous link otherwise. *)
Definition previous (links : list link) (k : nat) : option link_state :=
  match k with
  | 0 => Some Fulfilled
  | S j => lk_state <$> links !! j
  end.

Definition set_state (st : link_state) (lk : link) : link :=
  {| lk_id := lk_id lk; lk_data := lk_data lk; lk_state := st |}.

(** The [catch] handler that [call] attaches to the promise of its write. *)
Definition write_failed (k : nat) (id : string) (err : Error) (σ : Sidecar) : Sidecar :=
  with_promises (settle k (Rejected err))
    (with_progressCallbacks (delete id)
       (with_pending (delete id) σ)).

(** Link [k] is rejected with [err]: the chain's own [catch] logs and
    rethrows, then the handler of the call runs. *)
Definition reject_link (k : nat) (lk : link) (err : Error) (σ : Sidecar) : Sidecar :=
  write_failed k (lk_id lk) err (with_writeLock (alter (set_state (Failed err)) k) σ).

(** The reaction of link [k] to the settlement of the promise it was chained
    on.  If that promise is fulfilled the [then] handler runs: without a
    process the link is rejected, otherwise the line is passed to
    [stdin.write].  If that promise is rejected the [then] handler is
    skipped and the rejection passes on to link [k]. *)
Definition reaction (k : nat) (σ : Sidecar) : Sidecar :=
  match writeLock σ !! k with
  | Some lk =>
      match lk_state lk, previous (writeLock σ) k with
      | Waiting, Some Fulfilled =>
          if proc_available σ
          then with_stdin (fun chunks => chunks ++ [lk_data lk])
                 (with_writeLock (alter (set_state Writing) k) σ)
          else reject_link k lk (new_Error "Sidecar process not available") σ
      | Waiting, Some (Failed err) => reject_link k lk err σ
      | _, _ => σ
      end
  | None => σ
  end.

(** The callback of [stdin.write] for the write of link [k]. *)
Definition written (k : nat) (err : option Error) (σ : Sidecar) : Sidecar :=
  match writeLock σ !! k with
  | Some lk =>
      match lk_state lk, err with
      | Writing, Some e => reject_link k lk e σ
      | Writing, None => with_writeLock (alter (set_state Flushing) k) σ
      | _, _ => σ
      end
  | None => σ
  end.

(** [setTimeout(resolve, 5)] fires for link [k]. *)
Definition flushed (k : nat) (σ : Sidecar) : Sidecar :=
  match writeLock σ !! k with
  | Some lk =>
      match lk_state lk with
      | Flushing => with_writeLock (alter (set_state Fulfilled) k) σ
      | _ => σ
      end
  | None => σ
  end.

(** [writeWithLock(data)]: a new link is chained on [this.writeLock] and
    becomes [this.writeLock]. [id] is the id of the calling [call]. *)
Definition writeWithLock (id data : string) (σ : Sidecar) : Sidecar :=
  with_writeLock (fun links => links ++ [{| lk_id := id; lk_data := data; lk_state := Waiting |}]) σ.

(** The request line of a call whose [params] are the JSON value
    [params]. *)
Definition request_line (id method : string) (params : json) : string :=
  JSON_stringify (JObj [("id", JStr id); ("method", JStr method); ("params", params)]) +:+ LF.

(** [JSON.stringify({ id, method, params })] and the line feed, for any
    [params]. *)
Definition serialise (id method : string) (params : any) : completion string :=
  match params with
  | Data v => Normal (request_line id method v)
  | Omitted =>
      Normal (JSON_stringify (JObj [("id", JStr id); ("method", JStr method)]) +:+ LF)
  | Unserialisable err => Throw err
  end.

(** [if (onProgress) { this.progressCallbacks.set(id, onProgress) }] *)
Definition register (id : string) (onProgress : option callback) (σ : Sidecar) : Sidecar :=
  match onProgress with
  | Some cb => with_progressCallbacks (<[id := cb]>) σ
  | None => σ
  end.

(** [call(method, params, onProgress)], where [uuid] is what [randomUUID()]
    returns.  The result is the index of the returned promise.  The handler
    is registered first; when [JSON.stringify] then throws, so does [call],
    before it has made the promise. *)
Definition call (uuid method : string) (params : any) (onProgress : option callback)
    : M nat :=
  fun σ =>
  let id := uuid in
  let σ1 := register id onProgress σ in
  match serialise id method params with
  | Throw err => (Throw err, σ1)
  | Normal req =>
      let p := length (promises σ1) in
      let σ2 := with_promises (fun ps => ps ++ [None]) σ1 in
      let σ3 := with_pending (<[id := p]>) σ2 in
      (Normal p, writeWithLock id req σ3)
  end.

(** *** The event loop *)

Inductive event :=
  | Call (uuid method : string) (params : any) (onProgress : option callback)
  | Line (line : string)
  | Reaction (k : nat)
  | Written (k : nat) (err : option Error)
  | Flushed (k : nat).

Definition step (σ : Sidecar) (ev : event) : Sidecar :=
  match ev with
  | Call uuid method params onProgress => (call uuid method params onProgress σ).2
  | Line line => on_line line σ
  | Reaction k => reaction k σ
  | Written k err => written k err σ
  | Flushed k => flushed k σ
  end.

Definition run (evs : list event) (σ : Sidecar) : Sidecar := fold_left step evs σ.

(** The ids of the calls that returned a promise, in call order: entry [n]
    is the id of the call that made promise [n] and link [n]. *)
Fixpoint request_ids (evs : list event) : list string :=
  match evs with
  | [] => []
  | Call uuid method params _ :: rest =>
      match serialise uuid method params with
      | Normal _ => uuid :: request_ids rest
      | Throw _ => request_ids rest
      end
  | _ :: rest => request_ids rest
  end.

(** The ids of the calls that registered a handler and then threw. *)
Fixpoint thrown (evs : list event) : list string :=
  match evs with
  | [] => []
  | Call uuid method params (Some _) :: rest =>
      match serialise uuid method params with
      | Normal _ => thrown rest
      | Throw _ => uuid :: thrown rest
      end
  | _ :: rest => thrown rest
  end.


(** *** Vocabulary of the properties *)

(** The message is progress-shaped. *)
Definition progress_shaped (msg : json) : bool :=
  strict_equals (field msg "event") "progress" && truthy (field msg "id").

(** The message is terminal and settles its request with [o]. *)
Inductive terminal (msg : json) : settlement -> Prop :=
  | terminal_result :
      msg <> JNull ->
      progress_shaped msg = false ->
      defined (field msg "result") = true ->
      truthy (field msg "id") = true ->
      terminal msg (Resolved (field msg "result"))
  | terminal_error e :
      msg <> JNull ->
      progress_shaped msg = false ->
      defined (field msg "result") && truthy (field msg "id") = false ->
      truthy (field msg "error") = true ->
      truthy (field msg "id") = true ->
      call_createFriendlyError (field msg "error") = Normal e ->
      terminal msg (Rejected e).

(** [slot?.resolve(v)] on the promises. *)
Definition settle_found (slot : option nat) (o : settlement)
    (ps : list (option settlement)) : list (option settlement) :=
  match slot with
  | Some n => settle n o ps
  | None => ps
  end.

(** The state after a terminal message for [id] that settles with [o]. *)
Definition settled_by (id : value) (o : settlement) (σ : Sidecar) : Sidecar :=
  with_progressCallbacks (map_delete id)
    (with_pending (map_delete id)
       (with_promises (settle_found (map_get (pending σ) id) o) σ)).

(** The three things a line can do. *)
Inductive line_effect (line : string) (σ : Sidecar) : Sidecar -> Prop :=
  | line_dropped :
      line_effect line σ σ
  | line_progress msg cb :
      JSON_parse line = Some msg ->
      msg <> JNull ->
      progress_shaped msg = true ->
      map_get (progressCallbacks σ) (field msg "id") = Some cb ->
      line_effect line σ
        (with_delivered (fun log => log ++ [(field msg "id", msg)]) σ)
  | line_terminal msg o :
      JSON_parse line = Some msg ->
      terminal msg o ->
      line_effect line σ (settled_by (field msg "id") o σ).

(** The correlation table and the promises fit together: a key of the
    table points at the pending promise of the call that generated the key,
    and no later call that returned a promise generated the same key. *)
Record consistent (σ : Sidecar) : Prop := {
  promises_links : length (promises σ) = length (writeLock σ);
  pending_slot : forall i n, pending σ !! i = Some n ->
    exists lk, writeLock σ !! n = Some lk /\ lk_id lk = i /\ promises σ !! n = Some None;
  pending_latest : forall i n n' lk', pending σ !! i = Some n ->
    writeLock σ !! n' = Some lk' -> lk_id lk' = i -> n' <= n
}.

(** Where the keys of the progress table come from: a key is a key of the
    correlation table or one of [ids]. *)
Definition progress_known (ids : list string) (σ : Sidecar) : Prop :=
  forall i cb, progressCallbacks σ !! i = Some cb ->
    is_Some (pending σ !! i) \/ i ∈ ids.

(** The third shape of an inbound message, [{id, error}] with a string for
    [error]: it has the members [id] and [error] and is of neither other
    shape (no [result] member, not the [event] of a progress message). *)
Definition error_shaped (msg : json) (i text : string) : Prop :=
  field msg "id" = Some (JStr i) /\ field msg "error" = Some (JStr text) /\
  field msg "result" = None /\ field msg "event" <> Some (JStr "progress").


(** The things an event of the write chain can do to link [k]. *)
Inductive chain_effect (k : nat) (σ : Sidecar) : Sidecar -> Prop :=
  | chain_idle :
      chain_effect k σ σ
  | chain_write lk :
      writeLock σ !! k = Some lk -> lk_state lk = Waiting ->
      previous (writeLock σ) k = Some Fulfilled -> proc_available σ = true ->
      chain_effect k σ
        (with_stdin (fun chunks => chunks ++ [lk_data lk])
           (with_writeLock (alter (set_state Writing) k) σ))
  | chain_no_process lk :
      writeLock σ !! k = Some lk -> lk_state lk = Waiting ->
      previous (writeLock σ) k = Some Fulfilled -> proc_available σ = false ->
      chain_effect k σ (reject_link k lk (new_Error "Sidecar process not available") σ)
  | chain_passed_on lk err :
      writeLock σ !! k = Some lk -> lk_state lk = Waiting ->
      previous (writeLock σ) k = Some (Failed err) ->
      chain_effect k σ (reject_link k lk err σ)
  | chain_write_error lk err :
      writeLock σ !! k = Some lk -> lk_state lk = Writing ->
      chain_effect k σ (reject_link k lk err σ)
  | chain_written lk :
      writeLock σ !! k = Some lk -> lk_state lk = Writing ->
      chain_effect k σ (with_writeLock (alter (set_state Flushing) k) σ)
  | chain_flushed lk :
      writeLock σ !! k = Some lk -> lk_state lk = Flushing ->
      chain_effect k σ (with_writeLock (alter (set_state Fulfilled) k) σ).

(** With [m] chunks passed to [stdin.write]: they are the lines of the first
    [m] links; these links have left [Waiting] and all but the last of them
    are fulfilled; the links after them are waiting or were rejected without
    a write; and behind a waiting link all links wait. *)
Record chain_ok (links : list link) (chunks : list string) : Prop := {
  chunks_prefix : chunks `prefix_of` (lk_data <$> links);
  written_left_waiting : forall k lk,
    links !! k = Some lk -> k < length chunks -> lk_state lk <> Waiting;
  unwritten_waiting : forall k lk,
    links !! k = Some lk -> length chunks <= k ->
    lk_state lk = Waiting \/ exists e, lk_state lk = Failed e;
  earlier_fulfilled : forall k lk,
    links !! k = Some lk -> S k < length chunks -> lk_state lk = Fulfilled;
  waiting_behind : forall k k' lk lk',
    links !! k = Some lk -> links !! k' = Some lk' -> k < k' ->
    lk_state lk = Waiting -> lk_state lk' = Waiting
}.

(** Where the settlement of the request with id [i] can come from: a terminal
    message among the lines received that carries the id [i]. *)
Definition answered (evs : list event) (i : string) (o : settlement) : Prop :=
  exists line msg, Line line ∈ evs /\ JSON_parse line = Some msg /\
    field msg "id" = Some (JStr i) /\ terminal msg o.

(** The write of link [k] fails at event [ev] with [err]: its [then] handler
    finds no process, or [stdin.write] calls back with an error. *)
Inductive write_fails (σ : Sidecar) (k : nat) (lk : link) : event -> Error -> Prop :=
  | fails_without_process :
      lk_state lk = Waiting ->
      previous (writeLock σ) k = Some Fulfilled ->
      proc_available σ = false ->
      write_fails σ k lk (Reaction k) (new_Error "Sidecar process not available")
  | fails_on_stream err :
      lk_state lk = Writing ->
      write_fails σ k lk (Written k (Some err)) err.


(** The write of the link has begun: its line was passed to [stdin.write]
    and the write has not failed. *)
Definition started (st : link_state) : Prop :=
  st = Writing \/ st = Flushing \/ st = Fulfilled.



(** A burst of calls, given by their arguments. *)
Definition burst (cs : list (string * string * json * option callback)) : list event :=
  map (fun c : string * string * json * option callback =>
         Call c.1.1.1 c.1.1.2 c.1.2 c.2) cs.

End Bridge.

(** ** A sample runtime *)

Definition dq : string := String (Ascii.ascii_of_nat 34) EmptyString.

Definition quoted (s : string) : string := dq +:+ s +:+ dq.

(** [{"event":"progress","id":"X","status":"decoding"}] *)
Definition line_progress_X : string :=
  "{" +:+ quoted "event" +:+ ":" +:+ quoted "progress" +:+ "," +:+
  quoted "id" +:+ ":" +:+ quoted "X" +:+ "," +:+
  quoted "status" +:+ ":" +:+ quoted "decoding" +:+ "}".

(** [{"id":"X","result":{"text":"hello"}}] *)
Definition line_result_X : string :=
  "{" +:+ quoted "id" +:+ ":" +:+ quoted "X" +:+ "," +:+
  quoted "result" +:+ ":{" +:+ quoted "text" +:+ ":" +:+ quoted "hello" +:+ "}}".

(** [{"id":"Y","error":"401 Unauthorized"}] *)
Definition line_error_Y : string :=
  "{" +:+ quoted "id" +:+ ":" +:+ quoted "Y" +:+ "," +:+
  quoted "error" +:+ ":" +:+ quoted "401 Unauthorized" +:+ "}".

(** The error message for [X] whose error is the empty string. *)
Definition line_empty_error_X : string :=
  "{" +:+ quoted "id" +:+ ":" +:+ quoted "X" +:+ "," +:+
  quoted "error" +:+ ":" +:+ quoted "" +:+ "}".

(** A diagnostic print of the worker, not JSON. *)
Definition line_noise : string := "whisper_init_from_file: loading model".

Definition msg_progress_X : json :=
  JObj [("event", JStr "progress"); ("id", JStr "X"); ("status", JStr "decoding")].

Definition msg_result_X : json :=
  JObj [("id", JStr "X"); ("result", JObj [("text", JStr "hello")])].

Definition msg_error_Y : json :=
  JObj [("id", JStr "Y"); ("error", JStr "401 Unauthorized")].

Definition msg_empty_error_X : json :=
  JObj [("id", JStr "X"); ("error", JStr "")].

(** [JSON.parse] on the sample lines; every other line is taken to be
    malformed. *)
Definition sample_parse (line : string) : option json :=
  if String.eqb line line_progress_X then Some msg_progress_X
  else if String.eqb line line_result_X then Some msg_result_X
  else if String.eqb line line_error_Y then Some msg_error_Y
  else if String.eqb line line_empty_error_X then Some msg_empty_error_X
  else None.

(** [{"id":...,"method":"transcribe","params":null}] *)
Definition sample_request (id : string) : string :=
  "{" +:+ quoted "id" +:+ ":" +:+ quoted id +:+ "," +:+
  quoted "method" +:+ ":" +:+ quoted "transcribe" +:+ "," +:+
  quoted "params" +:+ ":null}".

(** [JSON.stringify] on the requests [transcribe(null)] of the ids [X] and
    [Y]. *)
Definition sample_stringify (v : json) : string :=
  match v with
  | JObj ((_, JStr id) :: _) =>
      if String.eqb id "X" then sample_request "X"
      else if String.eqb id "Y" then sample_request "Y"
      else "{}"
  | _ => "null"
  end.

Definition sample_runtime : Builtins.
Proof.
  refine {| JSON_parse := sample_parse;
            JSON_stringify := sample_stringify;
            Number_toString := fun _ => "0" |}.
  intros v. unfold sample_stringify.
  destruct v as [| | | | |[|[k [| | |id| |]] rest]]; try reflexivity.
  destruct (String.eqb id "X"); [reflexivity|].
  destruct (String.eqb id "Y"); reflexivity.
Defined.

(** A progress handler that returns, and one that throws. *)
Definition quiet_handler : callback := fun _ => Normal tt.

Definition failing_handler : callback :=
  fun _ => Throw {| name := "Error"; message := "render failed" |}.

(** The error of a broken pipe. *)
Definition EPIPE : Error := {| name := "Error"; message := "write EPIPE" |}.

(** ** Locating the worker binary *)

(** The first part of [start].  [path.resolve] and [fs.existsSync] belong to
    Node; [existsSync] is called inside [try]/[catch], so a call may also
    throw. *)
Section Locate.
Variable path_resolve : list string -> string.
Variable existsSync : string -> completion bool.

Definition binName (platform : string) : string :=
  if String.eqb platform "win32" then "core.exe" else "core".

(** [process.resourcesPath || __dirname] *)
Definition resources_dir (resourcesPath : option string) (dirname : string) : string :=
  match resourcesPath with
  | Some r => if String.eqb r "" then dirname else r
  | None => dirname
  end.

Definition possiblePaths (platform : string) (resourcesPath : option string)
    (dirname : string) : list string :=
  [ path_resolve [resources_dir resourcesPath dirname; binName platform];
    path_resolve [dirname; "../../../app.asar.unpacked/resources"; binName platform];
    path_resolve [dirname; "../../../rust/target/debug"; binName platform];
    path_resolve [resources_dir resourcesPath dirname; "app.asar.unpacked/resources";
                  binName platform];
    path_resolve [dirname; "../../resources"; binName platform];
    path_resolve [dirname; "../../"; binName platform] ].

(** The [for] loop: the path at which it breaks, if it does.  A probe that
    throws is caught and the loop goes on. *)
Fixpoint first_existing (paths : list string) : option string :=
  match paths with
  | [] => None
  | possiblePath :: rest =>
      match existsSync possiblePath with
      | Normal true => Some possiblePath
      | _ => first_existing rest
      end
  end.

(** [binPath] after the loop: it starts as [possiblePaths[0]] ([None] is the
    [undefined] of an empty array). *)
Definition binPath (paths : list string) : option string :=
  match first_existing paths with
  | Some found => Some found
  | None => head paths
  end.

End Locate.

(** ** Toasts for the errors of the bridge *)

Inductive toast_level := toast_error | toast_warning.

(** A call of [toast.error] or [toast.warning]: the title, the description
    and the label of the action button, if there is one. *)
Record Toast := {
  level : toast_level;
  title : string;
  description : string;
  action : option string
}.

(** [showErrorToast(error, count)] of [utils/errors.ts], for an [Error]
    object and a whole number of videos. *)
Definition showErrorToast (error : Error) (count : nat) : Toast :=
  let countText := if Nat.ltb 1 count then " (" +:+ pretty count +:+ " videos)" else "" in
  if String.eqb (name error) "API_KEY_MISSING" then
    {| level := toast_error; title := "🔑 API Key Not Configured";
       description := "Add OpenAI API key in settings for better transcription quality.";
       action := Some "Settings" |}
  else if String.eqb (name error) "API_KEY_INVALID" then
    {| level := toast_error; title := "🔑 Invalid API Key";
       description := "Please check your OpenAI API key in settings.";
       action := None |}
  else if String.eqb (name error) "NO_LOCAL_MODELS" then
    {| level := toast_warning; title := "📥 Using Online Transcription";
       description := "Local models not found. Transcription performed via OpenAI API.";
       action := None |}
  else if String.eqb (name error) "BINARY_NOT_FOUND" then
    {| level := toast_error; title := "⚙️ System Error";
       description := "Application components not found. Try reinstalling CapSlap.";
       action := None |}
  else if String.eqb (name error) "BINARY_DEP_MISSING" then
    {| level := toast_error; title := "🧩 Missing System Libraries";
       description := "Media tools require static ffmpeg/ffprobe builds. Please reinstall or contact support.";
       action := None |}
  else if String.eqb (name error) "NETWORK_ERROR" then
    {| level := toast_error; title := "🌐 Internet Connection Problem";
       description := "Check your network connection and try again.";
       action := None |}
  else if String.eqb (name error) "RATE_LIMIT" then
    {| level := toast_error; title := "⏰ Rate Limit Exceeded";
       description := "Too many requests to OpenAI API. Try again later.";
       action := None |}
  else if String.eqb (name error) "QUOTA_EXCEEDED" then
    {| level := toast_error; title := "💳 API Quota Exhausted";
       description := "Top up your OpenAI balance or use local models.";
       action := None |}
  else if String.eqb (name error) "FILE_NOT_FOUND" then
    {| level := toast_error; title := "📁 File Not Found";
       description := "Make sure the video file exists and is accessible.";
       action := None |}
  else
    {| level := toast_error; title := "❌ Error" +:+ countText;
       description := if String.eqb (message error) ""
                      then "An unexpected error occurred. Please try again."
                      else message error;
       action := None |}.

(** The toast for several failures with different names. *)
Definition mixed_errors_toast (n : nat) : Toast :=
  {| level := toast_error;
     title := "Failed to process " +:+ pretty n +:+ " videos";
     description := "Mixed errors occurred. Check settings and try again.";
     action := None |}.

(** [err.name || 'UNKNOWN_ERROR'] *)
Definition name_or_unknown (err : Error) : string :=
  if String.eqb (name err) "" then "UNKNOWN_ERROR" else name err.

(** The report of the failed requests at the end of [handleGenerate]:
    [failed] holds the rejection reasons.  One toast for all when they share
    a name, a general one otherwise, none when nothing failed. *)
Definition report_failures (failed : list Error) : option Toast :=
  if Nat.ltb 0 (length failed) then
    let errors := failed in
    let uniqueErrors := remove_dups (map name_or_unknown errors) in
    if Nat.eqb (length uniqueErrors) 1 then
      match head errors with
      | Some sampleError => Some (showErrorToast sampleError (length failed))
      | None => None
      end
    else
      Some (mixed_errors_toast (length failed))
  else None.

(** ** Further vocabulary *)

(** The write of a link is under way: [stdin.write] was called and the
    promise of the link is not settled yet. *)
Definition in_flight (st : link_state) : Prop := st = Writing \/ st = Flushing.

(** The first [n] links react, one after the other. *)
Definition react_all (n : nat) : list event := map Reaction (seq 0 n).

Definition not_available : Error := new_Error "Sidecar process not available".

(** The table of [createFriendlyError] without the two triggers that contain
    another trigger of their row. *)
Definition short_taxonomy : taxonomy :=
  [ (CredentialsMissing, ["API key not provided"; "You didn't provide an API key"]);
    (CredentialsInvalid, ["Unauthorized"]);
    (LocalResourceMissing, ["No whisper models found"; "No local whisper models available"]);
    (DependencyMissing, ["whisper.cpp binary not found"; "FFmpeg not found"]);
    (NetworkFailure, ["Network"; "fetch"; "ENOTFOUND"]);
    (RateLimited, ["rate limit"; "Too Many Requests"]);
    (QuotaExhausted, ["quota"]);
    (InputNotFound, ["file not found"; "No such file"]);
    (NativeDependencyMissing, ["dyld: Library not loaded"; "image not found"]) ].

(** Without a process every link waits or was rejected for that reason. *)
Definition idle_chain (σ : Sidecar) : Prop :=
  proc_available σ = false /\ stdin σ = [] /\
  forall k lk, writeLock σ !! k = Some lk ->
    lk_state lk = Waiting \/ lk_state lk = Failed not_available.

(** An error value without an [includes] method. *)
Definition no_includes (e : json) : Prop :=
  match e with
  | JStr _ | JArr _ => False
  | _ => True
  end.

(** ** Further sample inputs *)

(** A probe of the file system: the first path is unreadable, the second
    does not exist, the other two exist. *)
Definition sample_existsSync (p : string) : completion bool :=
  if String.eqb p "/opt/capslap/core"
  then Throw {| name := "Error"; message := "EACCES: permission denied" |}
  else if String.eqb p "/opt/capslap/app.asar.unpacked/resources/core" then Normal false
  else if String.eqb p "/src/rust/target/debug/core" then Normal true
  else if String.eqb p "/opt/capslap/resources/core" then Normal true
  else Normal false.

(** [{"id":"X","error":{"code":500}}] *)
Definition line_object_error_X : string :=
  "{" +:+ quoted "id" +:+ ":" +:+ quoted "X" +:+ "," +:+
  quoted "error" +:+ ":{" +:+ quoted "code" +:+ ":" +:+ quoted "500" +:+ "}}".

Definition msg_object_error_X : json :=
  JObj [("id", JStr "X"); ("error", JObj [("code", JStr "500")])].

(** The sample runtime with one more line that parses. *)
Definition demo_parse (line : string) : option json :=
  if String.eqb line line_object_error_X then Some msg_object_error_X
  else sample_parse line.

Definition demo_runtime : Builtins :=
  {| JSON_parse := demo_parse;
     JSON_stringify := sample_stringify;
     Number_toString := fun _ => "0";
     JSON_stringify_one_line := @JSON_stringify_one_line sample_runtime |}.

(** ** Classification *)

Lemma classify_first_row (earlier later : taxonomy) k triggers s :
  Forall (fun row => triggered row.2 s = false) earlier ->
  triggered triggers s = true ->
  classify (earlier ++ (k, triggers) :: later) s = k.
Proof.
  induction 1 as [|[k' ts'] earlier Hrow _ IH]; intros Hhit; simpl.
  - by rewrite Hhit.
  - simpl in Hrow. rewrite Hrow. by apply IH.
Qed.

Lemma classify_no_row (table : taxonomy) s :
  Forall (fun row => triggered row.2 s = false) table ->
  classify table s = Unknown.
Proof.
  induction 1 as [|[k ts] table Hrow _ IH]; simpl; [done|].
  simpl in Hrow. by rewrite Hrow.
Qed.

Lemma name_code_taxonomy (s : string) :
  name (createFriendlyError s) = kind_name (classify code_taxonomy s).
Proof.
  unfold createFriendlyError, friendly, code_taxonomy, classify, triggered, existsb.
  repeat match goal with
         | |- context [includes ?t s] =>
             generalize (includes t s); intros [|]; cbn [orb kind_name name];
             try reflexivity
         end.
Qed.

Lemma unknown_code_taxonomy (s : string) :
  classify code_taxonomy s = Unknown ->
  createFriendlyError s =
    {| name := "UNKNOWN_ERROR"; message := "An error occurred: " +:+ s |}.
Proof.
  unfold createFriendlyError, friendly, code_taxonomy, classify, triggered, existsb.
  repeat match goal with
         | |- context [includes ?t s] =>
             generalize (includes t s); intros [|]; cbn [orb];
             try discriminate; try reflexivity
         end.
Qed.

(** C4 (amended). Classification is the first-match rule over the table of
    trigger substrings that the code tests: the name of the classified error
    is the name of the first row with a trigger in the text; so a text with
    a trigger of a row and none of an earlier row gets that row's name; and
    a text without any trigger is an [UNKNOWN_ERROR] whose message ends with
    the text itself. *)
Theorem C4_classification_first_match (s : string) :
  name (createFriendlyError s) = kind_name (classify code_taxonomy s) /\
  (forall earlier k triggers later,
     code_taxonomy = earlier ++ (k, triggers) :: later ->
     Forall (fun row => triggered row.2 s = false) earlier ->
     triggered triggers s = true ->
     name (createFriendlyError s) = kind_name k) /\
  (Forall (fun row => triggered row.2 s = false) code_taxonomy ->
   createFriendlyError s =
     {| name := "UNKNOWN_ERROR"; message := "An error occurred: " +:+ s |}).
Proof.
  split; [apply name_code_taxonomy|]. split.
  - intros earlier k triggers later Htable Hearlier Hhit.
    rewrite name_code_taxonomy, Htable. f_equal. by apply classify_first_row.
  - intros Hnone. apply unknown_code_taxonomy. by apply classify_no_row.
Qed.

(** ** What one line does *)

Section Facts.
Context `{Builtins}.

Lemma settle_slot_run slot o σ :
  settle_slot slot o σ = (Normal tt, with_promises (settle_found slot o) σ).
Proof. destruct slot; [done|]. by destruct σ. Qed.

(** The handler without the monad: what [on_line] computes, branch by
    branch. *)
Lemma on_line_unfold line σ :
  on_line line σ =
    match JSON_parse line with
    | None | Some JNull => σ
    | Some msg =>
        if progress_shaped msg then
          match map_get (progressCallbacks σ) (field msg "id") with
          | Some cb => with_delivered (fun log => log ++ [(field msg "id", msg)]) σ
          | None => σ
          end
        else if defined (field msg "result") && truthy (field msg "id") then
          settled_by (field msg "id") (Resolved (field msg "result")) σ
        else if truthy (field msg "error") && truthy (field msg "id") then
          match call_createFriendlyError (field msg "error") with
          | Normal e => settled_by (field msg "id") (Rejected e) σ
          | Throw _ => σ
          end
        else σ
    end.
Proof.
  unfold on_line, try_catch, handle_line, parse, progress_shaped.
  destruct (JSON_parse line) as [msg|] eqn:Hparse; [|done].
  assert (msg = JNull \/ msg <> JNull) as [->|Hnull] by (destruct msg; auto); [done|].
  assert (Hprop : forall key, prop msg key = ret (field msg key)) by (by destruct msg).
  transitivity
    (if strict_equals (field msg "event") "progress" && truthy (field msg "id") then
       match map_get (progressCallbacks σ) (field msg "id") with
       | Some cb => with_delivered (fun log => log ++ [(field msg "id", msg)]) σ
       | None => σ
       end
     else if defined (field msg "result") && truthy (field msg "id") then
       settled_by (field msg "id") (Resolved (field msg "result")) σ
     else if truthy (field msg "error") && truthy (field msg "id") then
       match call_createFriendlyError (field msg "error") with
       | Normal e => settled_by (field msg "id") (Rejected e) σ
       | Throw _ => σ
       end
     else σ); [|by destruct msg].
  unfold mbind, M_bind, andM.
  repeat (unfold bind at 1; rewrite ?Hprop, ?settle_slot_run; cbn [ret gets modify lift]).
  destruct (strict_equals (field msg "event") "progress");
    destruct (truthy (field msg "id")); cbn [ret gets andb];
    try (destruct (map_get (progressCallbacks σ) _); reflexivity);
    destruct (defined (field msg "result")); cbn [ret andb];
    rewrite ?settle_slot_run; cbn [modify snd]; try reflexivity;
    destruct (truthy (field msg "error")); cbn [ret andb]; try reflexivity;
    destruct (call_createFriendlyError _); cbn [ret andb];
    rewrite ?settle_slot_run; reflexivity.
Qed.

Lemma on_line_effect line σ : line_effect line σ (on_line line σ).
Proof.
  rewrite on_line_unfold.
  destruct (JSON_parse line) as [msg|] eqn:Hparse; [|apply line_dropped].
  assert (msg = JNull \/ msg <> JNull) as [->|Hnull] by (destruct msg; auto);
    [apply line_dropped|].
  assert (line_effect line σ
    (if progress_shaped msg then
       match map_get (progressCallbacks σ) (field msg "id") with
       | Some cb => with_delivered (fun log => log ++ [(field msg "id", msg)]) σ
       | None => σ
       end
     else if defined (field msg "result") && truthy (field msg "id") then
       settled_by (field msg "id") (Resolved (field msg "result")) σ
     else if truthy (field msg "error") && truthy (field msg "id") then
       match call_createFriendlyError (field msg "error") with
       | Normal e => settled_by (field msg "id") (Rejected e) σ
       | Throw _ => σ
       end
     else σ)) as Heff; [|by destruct msg].
  destruct (progress_shaped msg) eqn:Hprog.
  { destruct (map_get _ _) as [cb|] eqn:Hcb; [|apply line_dropped].
    by eapply line_progress. }
  destruct (defined (field msg "result") && truthy (field msg "id")) eqn:Hres.
  { apply andb_prop in Hres as [Hres Hid].
    eapply (line_terminal _ _ msg); [done|]. by apply terminal_result. }
  destruct (truthy (field msg "error") && truthy (field msg "id")) eqn:Herr;
    [|apply line_dropped].
  apply andb_prop in Herr as [Herr Hid].
  destruct (call_createFriendlyError _) as [e|e] eqn:Hcls; [|apply line_dropped].
  eapply (line_terminal _ _ msg); [done|]. by apply terminal_error.
Qed.

(** ** Promises and links *)

Lemma length_settle n o ps : length (settle n o ps) = length ps.
Proof. unfold settle. destruct (ps !! n) as [[?|]|]; by rewrite ?length_insert. Qed.

Lemma settle_lookup_ne n m o ps : n <> m -> settle n o ps !! m = ps !! m.
Proof.
  intros Hne. unfold settle. destruct (ps !! n) as [[?|]|]; try done.
  by apply list_lookup_insert_ne.
Qed.

Lemma settle_pending n o ps : ps !! n = Some None -> settle n o ps !! n = Some (Some o).
Proof.
  intros Hn. unfold settle. rewrite Hn. apply list_lookup_insert_eq.
  by eapply lookup_lt_Some.
Qed.

(** A settled promise stays as it is: [resolve] and [reject] do nothing. *)
Lemma settle_settled n m o o' ps :
  ps !! m = Some (Some o') -> settle n o ps !! m = Some (Some o').
Proof.
  intros Hm. destruct (decide (n = m)) as [->|Hne].
  - unfold settle. by rewrite Hm.
  - by rewrite settle_lookup_ne.
Qed.

Lemma settle_lookup_inv n m o x ps :
  settle n o ps !! m = Some x ->
  ps !! m = Some x \/ (m = n /\ ps !! n = Some None /\ x = Some o).
Proof.
  intros Hm. destruct (decide (n = m)) as [->|Hne].
  - unfold settle in Hm. destruct (ps !! m) as [[?|]|] eqn:Hpm; simpl in Hm.
    + left. congruence.
    + rewrite list_lookup_insert_eq in Hm by (by eapply lookup_lt_Some).
      right. naive_solver.
    + left. congruence.
  - rewrite settle_lookup_ne in Hm by done. auto.
Qed.

Lemma lookup_set_state st k n (links : list link) :
  alter (set_state st) k links !! n =
    (if decide (k = n) then set_state st else id) <$> links !! n.
Proof.
  rewrite list_lookup_alter. case_decide as Hkn.
  - by subst.
  - by destruct (links !! n).
Qed.

Lemma lookup_set_state_id st k n lk (links : list link) :
  alter (set_state st) k links !! n = Some lk ->
  exists lk0, links !! n = Some lk0 /\ lk_id lk0 = lk_id lk /\ lk_data lk0 = lk_data lk.
Proof.
  rewrite lookup_set_state. destruct (links !! n) as [lk0|]; [|done].
  intros [= <-]. exists lk0. by case_decide.
Qed.

Lemma set_state_lookup_id st k n lk0 (links : list link) :
  links !! n = Some lk0 ->
  exists lk, alter (set_state st) k links !! n = Some lk /\
             lk_id lk = lk_id lk0 /\ lk_data lk = lk_data lk0.
Proof.
  intros Hn. rewrite lookup_set_state, Hn. eexists. split; [done|]. by case_decide.
Qed.

(** ** Consistency of the two tables with the promises *)

Lemma consistent_init available : consistent (init available).
Proof. split; simpl; [done|intros ??|intros ????]; by rewrite lookup_empty. Qed.

(** What [call] does to the state, in its two cases. *)
Lemma step_call uuid method params onProgress σ :
  step σ (Call uuid method params onProgress) =
    let σ1 := register uuid onProgress σ in
    match serialise uuid method params with
    | Normal req =>
        writeWithLock uuid req
          (with_pending (<[uuid := length (promises σ1)]>)
             (with_promises (fun ps => ps ++ [None]) σ1))
    | Throw _ => σ1
    end.
Proof. simpl. unfold call. by destruct (serialise uuid method params). Qed.

Lemma register_frame id onProgress σ :
  proc_available (register id onProgress σ) = proc_available σ /\
  pending (register id onProgress σ) = pending σ /\
  writeLock (register id onProgress σ) = writeLock σ /\
  promises (register id onProgress σ) = promises σ /\
  stdin (register id onProgress σ) = stdin σ /\
  delivered (register id onProgress σ) = delivered σ.
Proof. by destruct onProgress. Qed.


Lemma consistent_slot_inj σ i j n :
  consistent σ -> pending σ !! i = Some n -> pending σ !! j = Some n -> i = j.
Proof.
  intros Hc Hi Hj.
  destruct (pending_slot _ Hc _ _ Hi) as (lk & Hlk & <- & _).
  destruct (pending_slot _ Hc _ _ Hj) as (lk' & Hlk' & <- & _).
  congruence.
Qed.

Lemma consistent_register id onProgress σ :
  consistent σ -> consistent (register id onProgress σ).
Proof. intros [Hlen Hslot Hlatest]. destruct onProgress; by split. Qed.

(** A new pending promise with its link, under the key [id]. *)
Lemma consistent_enqueue id req σ :
  consistent σ ->
  consistent (writeWithLock id req
                (with_pending (<[id := length (promises σ)]>)
                   (with_promises (fun ps => ps ++ [None]) σ))).
Proof.
  intros [Hlen Hslot Hlatest]. split; simpl.
  - rewrite !length_app. simpl. lia.
  - intros i n Hin. destruct (decide (id = i)) as [->|Hne].
    + rewrite lookup_insert_eq in Hin. injection Hin as <-.
      eexists. split; [rewrite Hlen; by apply list_lookup_middle|].
      split; [done|]. by apply list_lookup_middle.
    + rewrite lookup_insert_ne in Hin by done.
      destruct (Hslot _ _ Hin) as (lk & Hlk & Hid & Hpn).
      exists lk. split; [by apply lookup_app_l_Some|].
      split; [done|by apply lookup_app_l_Some].
  - intros i n n' lk' Hin Hn' Hid. destruct (decide (id = i)) as [->|Hne].
    + rewrite lookup_insert_eq in Hin. injection Hin as <-.
      apply lookup_lt_Some in Hn'. rewrite length_app in Hn'. simpl in Hn'. lia.
    + rewrite lookup_insert_ne in Hin by done.
      apply lookup_app_Some in Hn' as [Hn'|[_ Hn']]; [by eapply Hlatest|].
      apply list_lookup_singleton_Some in Hn' as [_ <-]. done.
Qed.

Lemma consistent_call uuid method params onProgress σ :
  consistent σ -> consistent (step σ (Call uuid method params onProgress)).
Proof.
  intros Hc. rewrite step_call. cbv zeta.
  apply (consistent_register uuid onProgress) in Hc.
  destruct (serialise uuid method params) as [req|e]; [|done].
  by apply consistent_enqueue.
Qed.

Lemma consistent_settled_by id o σ : consistent σ -> consistent (settled_by id o σ).
Proof.
  intros Hc. pose proof Hc as [Hlen Hslot Hlatest]. unfold settled_by.
  destruct id as [[| | |i| |]|]; simpl;
    try (split; simpl; done).
  split; simpl.
  - unfold settle_found. destruct (pending σ !! i); by rewrite ?length_settle.
  - intros j n Hj. apply lookup_delete_Some in Hj as [Hne Hj].
    destruct (Hslot _ _ Hj) as (lk & Hlk & Hid & Hpn).
    exists lk. split; [done|]. split; [done|].
    unfold settle_found. destruct (pending σ !! i) as [n'|] eqn:Hi; [|done].
    rewrite settle_lookup_ne; [done|].
    intros ->. apply Hne. by eapply consistent_slot_inj.
  - intros j n n' lk' Hj. apply lookup_delete_Some in Hj as [Hne Hj].
    by eapply Hlatest.
Qed.

Lemma consistent_on_line line σ : consistent σ -> consistent (on_line line σ).
Proof.
  intros Hc. destruct (on_line_effect line σ); [done| |by apply consistent_settled_by].
  by destruct Hc.
Qed.

Lemma consistent_set_state st k σ :
  consistent σ -> consistent (with_writeLock (alter (set_state st) k) σ).
Proof.
  intros [Hlen Hslot Hlatest]. split; simpl; [by rewrite length_alter| |].
  - intros i n Hin. destruct (Hslot _ _ Hin) as (lk & Hlk & Hid & Hpn).
    destruct (set_state_lookup_id st k _ _ _ Hlk) as (lk' & Hlk' & Hid' & _).
    exists lk'. split; [done|]. split; [congruence|done].
  - intros i n n' lk' Hin Hn' Hid.
    destruct (lookup_set_state_id _ _ _ _ _ Hn') as (lk0 & Hlk0 & Hid0 & _).
    eapply Hlatest; [done..|congruence].
Qed.

Lemma consistent_write_failed k lk err σ :
  consistent σ -> writeLock σ !! k = Some lk ->
  consistent (write_failed k (lk_id lk) err σ).
Proof.
  intros [Hlen Hslot Hlatest] Hk. split; simpl.
  - by rewrite length_settle.
  - intros j n Hj. apply lookup_delete_Some in Hj as [Hne Hj].
    destruct (Hslot _ _ Hj) as (lk' & Hlk' & Hid & Hpn).
    exists lk'. split; [done|]. split; [done|].
    rewrite settle_lookup_ne; [done|]. intros ->. congruence.
  - intros j n n' lk' Hj. apply lookup_delete_Some in Hj as [Hne Hj].
    by eapply Hlatest.
Qed.

Lemma consistent_reject_link k lk err σ :
  consistent σ -> writeLock σ !! k = Some lk -> consistent (reject_link k lk err σ).
Proof.
  intros Hc Hk. unfold reject_link.
  destruct (set_state_lookup_id (Failed err) k _ _ _ Hk) as (lk' & Hlk' & Hid' & _).
  rewrite <- Hid'. apply consistent_write_failed; [|done].
  by apply consistent_set_state.
Qed.

Lemma consistent_step σ ev : consistent σ -> consistent (step σ ev).
Proof.
  intros Hc. destruct ev as [uuid method params onProgress|line|k|k err|k]; simpl.
  - by apply consistent_call.
  - by apply consistent_on_line.
  - unfold reaction. destruct (writeLock σ !! k) as [lk|] eqn:Hk; [|done].
    destruct (lk_state lk); try done.
    destruct (previous (writeLock σ) k) as [[| | | |e]|]; try done.
    + destruct (proc_available σ).
      * pose proof (consistent_set_state Writing k _ Hc) as [Hlen Hslot Hlatest].
        by split.
      * by apply consistent_reject_link.
    + by apply consistent_reject_link.
  - unfold written. destruct (writeLock σ !! k) as [lk|] eqn:Hk; [|done].
    destruct (lk_state lk); try done. destruct err.
    + by apply consistent_reject_link.
    + by apply consistent_set_state.
  - unfold flushed. destruct (writeLock σ !! k) as [lk|] eqn:Hk; [|done].
    destruct (lk_state lk); try done. by apply consistent_set_state.
Qed.

Lemma run_snoc evs ev σ : run (evs ++ [ev]) σ = step (run evs σ) ev.
Proof. unfold run. by rewrite fold_left_app. Qed.

Lemma run_app evs evs' σ : run (evs ++ evs') σ = run evs' (run evs σ).
Proof. unfold run. by rewrite fold_left_app. Qed.

Lemma consistent_run evs σ : consistent σ -> consistent (run evs σ).
Proof.
  revert σ. induction evs as [|ev evs IH]; intros σ Hc; [done|].
  simpl. apply IH. by apply consistent_step.
Qed.

(** ** What a step leaves alone *)

Lemma thrown_one ev :
  thrown [ev] =
    match ev with
    | Call uuid method params (Some _) =>
        match serialise uuid method params with
        | Normal _ => []
        | Throw _ => [uuid]
        end
    | _ => []
    end.
Proof.
  destruct ev as [uuid method params [cb|]|line|k|k err|k]; simpl; try done.
Qed.

Lemma on_line_frame line σ :
  writeLock (on_line line σ) = writeLock σ /\
  stdin (on_line line σ) = stdin σ /\
  proc_available (on_line line σ) = proc_available σ.
Proof. by destruct (on_line_effect line σ). Qed.

Lemma fmap_set_state {A} (f : link -> A) st k (links : list link) :
  (forall lk, f (set_state st lk) = f lk) ->
  f <$> alter (set_state st) k links = f <$> links.
Proof.
  intros Hf. apply list_eq; intros n.
  rewrite !list_lookup_fmap, lookup_set_state.
  destruct (links !! n); simpl; [|done]. case_decide; simpl; by rewrite ?Hf.
Qed.

(** Only [call] adds a link, and a link keeps its id and its line. *)
Lemma step_links {A} (f : link -> A) σ ev :
  (forall st lk, f (set_state st lk) = f lk) ->
  f <$> writeLock (step σ ev) =
    (f <$> writeLock σ) ++
    match ev with
    | Call uuid method params _ =>
        match serialise uuid method params with
        | Normal req => [f {| lk_id := uuid; lk_data := req; lk_state := Waiting |}]
        | Throw _ => []
        end
    | _ => []
    end.
Proof.
  intros Hf. destruct ev as [uuid method params onProgress|line|k|k err|k];
    [rewrite step_call|simpl..].
  - destruct (serialise uuid method params); destruct onProgress; simpl;
      by rewrite ?fmap_app, ?app_nil_r.
  - destruct (on_line_frame line σ) as (-> & _). by rewrite app_nil_r.
  - rewrite app_nil_r. unfold reaction.
    destruct (writeLock σ !! k) as [lk|]; [|done].
    destruct (lk_state lk); try done.
    destruct (previous (writeLock σ) k) as [[| | | |e]|]; try done;
      [destruct (proc_available σ)|]; simpl; by rewrite fmap_set_state.
  - rewrite app_nil_r. unfold written.
    destruct (writeLock σ !! k) as [lk|]; [|done].
    destruct (lk_state lk); try done.
    destruct err; simpl; by rewrite fmap_set_state.
  - rewrite app_nil_r. unfold flushed.
    destruct (writeLock σ !! k) as [lk|]; [|done].
    destruct (lk_state lk); try done. simpl. by rewrite fmap_set_state.
Qed.

Lemma run_ids evs σ :
  lk_id <$> writeLock (run evs σ) = (lk_id <$> writeLock σ) ++ request_ids evs.
Proof.
  revert σ. induction evs as [|ev evs IH]; intros σ; simpl; [by rewrite app_nil_r|].
  rewrite IH, (step_links lk_id) by done. rewrite <- app_assoc. f_equal.
  destruct ev as [uuid method params onProgress|line|k|k err|k]; try done.
  simpl. by destruct (serialise uuid method params).
Qed.


Lemma step_proc_available σ ev : proc_available (step σ ev) = proc_available σ.
Proof.
  destruct ev as [uuid method params onProgress|line|k|k err|k];
    [rewrite step_call|simpl..].
  - by destruct (serialise uuid method params), onProgress.
  - apply on_line_frame.
  - unfold reaction. destruct (writeLock σ !! k) as [lk|]; [|done].
    destruct (lk_state lk); try done.
    destruct (previous (writeLock σ) k) as [[| | | |e]|]; try done.
    by destruct (proc_available σ) eqn:Hp.
  - unfold written. destruct (writeLock σ !! k) as [lk|]; [|done].
    destruct (lk_state lk); try done. by destruct err.
  - unfold flushed. destruct (writeLock σ !! k) as [lk|]; [|done].
    by destruct (lk_state lk).
Qed.

(** ** What one event of the write chain does *)

Lemma reaction_effect k σ : chain_effect k σ (reaction k σ).
Proof.
  unfold reaction. destruct (writeLock σ !! k) as [lk|] eqn:Hk; [|apply chain_idle].
  destruct (lk_state lk) eqn:Hst; try apply chain_idle.
  destruct (previous (writeLock σ) k) as [[| | | |e]|] eqn:Hprev; try apply chain_idle.
  - destruct (proc_available σ) eqn:Hp.
    + by eapply chain_write.
    + by eapply chain_no_process.
  - by eapply chain_passed_on.
Qed.

Lemma written_effect k err σ : chain_effect k σ (written k err σ).
Proof.
  unfold written. destruct (writeLock σ !! k) as [lk|] eqn:Hk; [|apply chain_idle].
  destruct (lk_state lk) eqn:Hst; try apply chain_idle. destruct err.
  - by eapply chain_write_error.
  - by eapply chain_written.
Qed.

Lemma flushed_effect k σ : chain_effect k σ (flushed k σ).
Proof.
  unfold flushed. destruct (writeLock σ !! k) as [lk|] eqn:Hk; [|apply chain_idle].
  destruct (lk_state lk) eqn:Hst; try apply chain_idle. by eapply chain_flushed.
Qed.

(** ** The shape of the write chain *)

Lemma chain_ok_init : chain_ok [] [].
Proof.
  split; simpl; [done|..]; intros k; intros; by rewrite lookup_nil in *.
Qed.

Lemma chain_ok_call links chunks id data :
  chain_ok links chunks ->
  chain_ok (links ++ [{| lk_id := id; lk_data := data; lk_state := Waiting |}]) chunks.
Proof.
  intros [Hpre Hleft Hun Hearly Hbehind].
  assert (Hlen : length chunks <= length links).
  { apply prefix_length in Hpre. by rewrite length_fmap in Hpre. }
  split.
  - rewrite fmap_app. by apply prefix_app_r.
  - intros k lk Hk Hlt. apply (Hleft k); [|done].
    rewrite lookup_app_l in Hk; [done|lia].
  - intros k lk Hk Hle. destruct (decide (k < length links)) as [Hlt|Hge].
    + rewrite lookup_app_l in Hk by done. eauto.
    + apply lookup_app_Some in Hk as [Hk|[_ Hk]].
      * apply lookup_lt_Some in Hk. lia.
      * apply list_lookup_singleton_Some in Hk as [_ <-]. by left.
  - intros k lk Hk Hlt. apply (Hearly k); [|done].
    rewrite lookup_app_l in Hk; [done|lia].
  - intros k k' lk lk' Hk Hk' Hlt Hw.
    apply lookup_app_Some in Hk' as [Hk'|[_ Hk']].
    + apply lookup_app_Some in Hk as [Hk|[Hge _]];
        [exact (Hbehind _ _ _ _ Hk Hk' Hlt Hw)|].
      apply lookup_lt_Some in Hk'. lia.
    + by apply list_lookup_singleton_Some in Hk' as [_ <-].
Qed.

(** The state of one link changes, and not to [Waiting]; no link before it
    waits. *)
Lemma waiting_behind_set_state (links : list link) k st :
  (forall k' lk' lk, links !! k' = Some lk' -> links !! k = Some lk -> k' < k ->
     lk_state lk' <> Waiting) ->
  st <> Waiting ->
  (forall a b la lb, links !! a = Some la -> links !! b = Some lb -> a < b ->
     lk_state la = Waiting -> lk_state lb = Waiting) ->
  forall a b la lb,
    alter (set_state st) k links !! a = Some la ->
    alter (set_state st) k links !! b = Some lb -> a < b ->
    lk_state la = Waiting -> lk_state lb = Waiting.
Proof.
  intros Hbefore Hst Hbehind a b la lb.
  rewrite !lookup_set_state.
  destruct (links !! a) as [la0|] eqn:Ha; [|done].
  destruct (links !! b) as [lb0|] eqn:Hb; [|done].
  intros [= <-] [= <-] Hab. destruct (decide (k = a)) as [->|Hka]; simpl; [done|].
  intros Hw. destruct (decide (k = b)) as [->|Hkb]; simpl.
  - by destruct (Hbefore _ _ _ Ha Hb Hab).
  - exact (Hbehind _ _ _ _ Ha Hb Hab Hw).
Qed.

(** A link that has left [Waiting] changes state. *)
Lemma chain_ok_progress links chunks k lk st :
  chain_ok links chunks ->
  links !! k = Some lk ->
  (lk_state lk = Writing \/ lk_state lk = Flushing) ->
  st <> Waiting ->
  chain_ok (alter (set_state st) k links) chunks.
Proof.
  intros [Hpre Hleft Hun Hearly Hbehind] Hk Hst Hnew.
  assert (Hkm : S k = length chunks).
  { destruct (decide (length chunks <= k)) as [Hle|Hgt].
    { destruct (Hun _ _ Hk Hle) as [?|[e ?]]; destruct Hst; congruence. }
    destruct (decide (S k < length chunks)) as [Hlt|?]; [|lia].
    specialize (Hearly _ _ Hk Hlt). destruct Hst; congruence. }
  split.
  - by rewrite fmap_set_state.
  - intros n ln. rewrite lookup_set_state. destruct (links !! n) as [l0|] eqn:Hn; [|done].
    intros [= <-] Hlt. case_decide; simpl; [done|by eapply Hleft].
  - intros n ln. rewrite lookup_set_state. destruct (links !! n) as [l0|] eqn:Hn; [|done].
    intros [= <-] Hle. case_decide; simpl; [lia|by eapply Hun].
  - intros n ln. rewrite lookup_set_state. destruct (links !! n) as [l0|] eqn:Hn; [|done].
    intros [= <-] Hlt. case_decide; simpl; [lia|by eapply Hearly].
  - apply waiting_behind_set_state; [|done..].
    intros k' lk' lk0 Hk' Hk0 Hlt. eapply Hleft; [done|lia].
Qed.

(** A waiting link, chained on a settled promise, is rejected without a
    write. *)
Lemma chain_ok_rejected links chunks k lk e :
  chain_ok links chunks ->
  links !! k = Some lk -> lk_state lk = Waiting ->
  (previous links k = Some Fulfilled \/ exists e', previous links k = Some (Failed e')) ->
  chain_ok (alter (set_state (Failed e)) k links) chunks.
Proof.
  intros [Hpre Hleft Hun Hearly Hbehind] Hk Hst Hprev.
  assert (Hkm : length chunks <= k).
  { destruct (decide (k < length chunks)) as [Hlt|?]; [|lia].
    by destruct (Hleft _ _ Hk Hlt). }
  split.
  - by rewrite fmap_set_state.
  - intros n ln. rewrite lookup_set_state. destruct (links !! n) as [l0|] eqn:Hn; [|done].
    intros [= <-] Hlt. case_decide; simpl; [done|by eapply Hleft].
  - intros n ln. rewrite lookup_set_state. destruct (links !! n) as [l0|] eqn:Hn; [|done].
    intros [= <-] Hle. case_decide; simpl; [eauto|by eapply Hun].
  - intros n ln. rewrite lookup_set_state. destruct (links !! n) as [l0|] eqn:Hn; [|done].
    intros [= <-] Hlt. case_decide; simpl; [lia|by eapply Hearly].
  - apply waiting_behind_set_state; [|done..].
    intros k' lk' lk0 Hk' Hk0 Hlt Hw.
    destruct k as [|j]; [lia|]. simpl in Hprev.
    destruct (links !! j) as [lj|] eqn:Hj; simpl in Hprev;
      [|by destruct Hprev as [?|[? ?]]].
    assert (lk_state lj = Waiting) as Hwj.
    { destruct (decide (k' = j)) as [->|?]; [congruence|].
      eapply (Hbehind k' j); eauto. lia. }
    rewrite Hwj in Hprev. by destruct Hprev as [?|[? ?]].
Qed.

(** The first waiting link after the written ones starts its write. *)
Lemma chain_ok_write links chunks k lk :
  chain_ok links chunks ->
  links !! k = Some lk -> lk_state lk = Waiting ->
  previous links k = Some Fulfilled ->
  k = length chunks /\
  chain_ok (alter (set_state Writing) k links) (chunks ++ [lk_data lk]).
Proof.
  intros [Hpre Hleft Hun Hearly Hbehind] Hk Hst Hprev.
  assert (Hge : length chunks <= k).
  { destruct (decide (k < length chunks)) as [Hlt|?]; [|lia].
    by destruct (Hleft _ _ Hk Hlt). }
  assert (Hkm : k = length chunks).
  { destruct k as [|j]; [lia|]. simpl in Hprev.
    destruct (links !! j) as [lj|] eqn:Hj; [|done]. simpl in Hprev.
    destruct (decide (length chunks <= j)) as [Hle|?]; [|lia].
    destruct (Hun _ _ Hj Hle) as [?|[e ?]]; congruence. }
  split; [done|]. split.
  - rewrite fmap_set_state by done. destruct Hpre as [rest Hrest].
    assert (Hd : (lk_data <$> links) !! k = Some (lk_data lk))
      by (by rewrite list_lookup_fmap, Hk).
    rewrite Hrest, Hkm, lookup_app_r, Nat.sub_diag in Hd by lia.
    destruct rest as [|d rest]; [done|]. simpl in Hd. injection Hd as ->.
    exists rest. by rewrite Hrest, <- app_assoc.
  - intros n ln. rewrite lookup_set_state. destruct (links !! n) as [l0|] eqn:Hn; [|done].
    intros [= <-]. rewrite length_app. simpl. intros Hlt.
    case_decide; simpl; [done|]. eapply Hleft; [done|lia].
  - intros n ln. rewrite lookup_set_state. destruct (links !! n) as [l0|] eqn:Hn; [|done].
    intros [= <-]. rewrite length_app. simpl. intros Hle.
    case_decide; simpl; [lia|]. eapply Hun; [done|lia].
  - intros n ln. rewrite lookup_set_state. destruct (links !! n) as [l0|] eqn:Hn; [|done].
    intros [= <-]. rewrite length_app. simpl. intros Hlt.
    case_decide; simpl; [lia|].
    destruct (decide (S n < length chunks)) as [?|Hlast]; [by eapply Hearly|].
    assert (k = S n) as -> by lia. simpl in Hprev. rewrite Hn in Hprev.
    simpl in Hprev. congruence.
  - apply waiting_behind_set_state; [|done..].
    intros k' lk' lk0 Hk' Hk0 Hlt. eapply Hleft; [done|lia].
Qed.

Lemma chain_ok_effect k σ σ' :
  chain_effect k σ σ' ->
  chain_ok (writeLock σ) (stdin σ) -> chain_ok (writeLock σ') (stdin σ').
Proof.
  intros Heff Hok. destruct Heff; simpl; try done.
  - by eapply chain_ok_write.
  - eapply chain_ok_rejected; eauto.
  - eapply chain_ok_rejected; eauto.
  - eapply chain_ok_progress; eauto.
  - eapply chain_ok_progress; eauto.
  - eapply chain_ok_progress; eauto.
Qed.

Lemma step_chain_effect σ ev :
  match ev with
  | Reaction k | Written k _ | Flushed k => chain_effect k σ (step σ ev)
  | _ => True
  end.
Proof.
  destruct ev; simpl; auto using reaction_effect, written_effect, flushed_effect.
Qed.

Lemma chain_ok_step σ ev :
  chain_ok (writeLock σ) (stdin σ) ->
  chain_ok (writeLock (step σ ev)) (stdin (step σ ev)).
Proof.
  intros Hok. pose proof (step_chain_effect σ ev) as Heff.
  destruct ev as [uuid method params onProgress|line|k|k err|k];
    try (by eapply chain_ok_effect).
  - rewrite step_call.
    destruct (serialise uuid method params), onProgress; simpl;
      by try apply chain_ok_call.
  - simpl. destruct (on_line_frame line σ) as (-> & -> & _). done.
Qed.

Lemma chain_ok_run evs σ :
  chain_ok (writeLock σ) (stdin σ) ->
  chain_ok (writeLock (run evs σ)) (stdin (run evs σ)).
Proof.
  revert σ. induction evs as [|ev evs IH]; intros σ Hok; [done|].
  simpl. apply IH. by apply chain_ok_step.
Qed.

(** ** How promises get settled *)

Lemma request_ids_app evs evs' :
  request_ids (evs ++ evs') = request_ids evs ++ request_ids evs'.
Proof.
  induction evs as [|ev evs IH]; [done|].
  destruct ev as [uuid method params onProgress|line|k|k err|k]; simpl; try done.
  destruct (serialise uuid method params); simpl; by rewrite IH.
Qed.

Lemma thrown_app evs evs' : thrown (evs ++ evs') = thrown evs ++ thrown evs'.
Proof.
  induction evs as [|ev evs IH]; [done|].
  destruct ev as [uuid method params [cb|]|line|k|k err|k]; simpl; try done.
  destruct (serialise uuid method params); simpl; by rewrite IH.
Qed.

(** A call that threw after it had registered its handler is a call with a
    handler on whose [params] [JSON.stringify] throws. *)
Lemma thrown_elem evs i :
  i ∈ thrown evs ->
  exists method err cb, Call i method (Unserialisable err) (Some cb) ∈ evs.
Proof.
  induction evs as [|ev evs IH]; simpl; [by intros ?%elem_of_nil|].
  assert (Hrest : i ∈ thrown evs ->
            exists method err cb,
              Call i method (Unserialisable err) (Some cb) ∈ ev :: evs).
  { intros Hi. destruct (IH Hi) as (m & e & cb & Hin). exists m, e, cb. by right. }
  destruct ev as [uuid method [v| |err] [cb|]|line|k|k err|k]; simpl; try done.
  intros [->|Hi]%elem_of_cons; [|by apply Hrest].
  exists method, err, cb. by left.
Qed.



(** The promise of a request is rejected by the [catch] handler of its call
    exactly when its link of the chain is rejected. *)
Lemma reject_link_promise k lk err σ n x :
  promises (reject_link k lk err σ) !! n = Some x ->
  promises σ !! n = Some x \/
  (n = k /\ promises σ !! k = Some None /\ x = Some (Rejected err)).
Proof. simpl. apply settle_lookup_inv. Qed.

Lemma reject_link_state k lk err σ :
  writeLock σ !! k = Some lk ->
  writeLock (reject_link k lk err σ) !! k = Some (set_state (Failed err) lk).
Proof. intros Hk. simpl. by rewrite lookup_set_state, Hk, decide_True. Qed.

(** A step settles a promise in one of two ways: a terminal message whose id
    is the key of the promise in the correlation table, or the rejection of
    the promise's own link. *)
Lemma step_settles σ ev n o :
  promises (step σ ev) !! n = Some (Some o) ->
  promises σ !! n = Some (Some o) \/
  (exists line msg i, ev = Line line /\ JSON_parse line = Some msg /\
     field msg "id" = Some (JStr i) /\ pending σ !! i = Some n /\ terminal msg o) \/
  (exists lk err, writeLock σ !! n = Some lk /\ o = Rejected err /\
     writeLock (step σ ev) !! n = Some (set_state (Failed err) lk)).
Proof.
  intros Hn. pose proof (step_chain_effect σ ev) as Heff.
  destruct ev as [uuid method params onProgress|line|k|k err|k].
  - left. rewrite step_call in Hn. cbv zeta in Hn.
    destruct (register_frame uuid onProgress σ) as (_ & _ & _ & Hps & _).
    destruct (serialise uuid method params); [|by rewrite Hps in Hn].
    simpl in Hn. rewrite Hps in Hn.
    apply lookup_app_Some in Hn as [?|[_ Hn]]; [done|].
    by apply list_lookup_singleton_Some in Hn as [_ ?].
  - simpl in Hn. destruct (on_line_effect line σ) as [|msg cb|msg o' Hparse Hterm];
      [by left..|].
    unfold settled_by in Hn. simpl in Hn. unfold settle_found in Hn.
    destruct (field msg "id") as [[| | |i| |]|] eqn:Hid; simpl in Hn; try by left.
    destruct (pending σ !! i) as [n'|] eqn:Hi; [|by left].
    apply settle_lookup_inv in Hn as [?|(-> & Hp & [= ->])]; [by left|].
    right. left. by exists line, msg, i.
  - simpl in *. destruct Heff; try (by left);
      (apply reject_link_promise in Hn as [?|(-> & Hp & [= ->])]; [by left|];
       right; right; eexists _, _; eauto using reject_link_state).
  - simpl in *. destruct Heff; try (by left);
      (apply reject_link_promise in Hn as [?|(-> & Hp & [= ->])]; [by left|];
       right; right; eexists _, _; eauto using reject_link_state).
  - simpl in *. destruct Heff; try (by left);
      (apply reject_link_promise in Hn as [?|(-> & Hp & [= ->])]; [by left|];
       right; right; eexists _, _; eauto using reject_link_state).
Qed.



(** A link keeps its id and its line, and a rejected link stays rejected. *)
Lemma step_link σ ev n lk :
  writeLock σ !! n = Some lk ->
  exists lk', writeLock (step σ ev) !! n = Some lk' /\
    lk_id lk' = lk_id lk /\ lk_data lk' = lk_data lk /\
    (forall e, lk_state lk = Failed e -> lk_state lk' = Failed e).
Proof.
  intros Hn. pose proof (step_chain_effect σ ev) as Heff.
  assert (Halter : forall st k lk0, writeLock σ !! k = Some lk0 ->
            (forall e, lk_state lk0 <> Failed e) ->
            exists lk', alter (set_state st) k (writeLock σ) !! n = Some lk' /\
              lk_id lk' = lk_id lk /\ lk_data lk' = lk_data lk /\
              (forall e, lk_state lk = Failed e -> lk_state lk' = Failed e)).
  { intros st k lk0 Hk Hnf. rewrite lookup_set_state, Hn. simpl.
    eexists. split; [done|]. case_decide as Hkn; [|done].
    subst. rewrite Hn in Hk. injection Hk as ->. simpl.
    repeat split; try done. intros e He. by destruct (Hnf e). }
  destruct ev as [uuid method params onProgress|line|k|k err|k].
  - exists lk. rewrite step_call. split; [|done].
    destruct (serialise uuid method params), onProgress; simpl;
      by try apply lookup_app_l_Some.
  - exists lk. simpl. destruct (on_line_frame line σ) as (-> & _). done.
  - simpl in *. destruct Heff; simpl; eauto; eapply Halter; eauto; congruence.
  - simpl in *. destruct Heff; simpl; eauto; eapply Halter; eauto; congruence.
  - simpl in *. destruct Heff; simpl; eauto; eapply Halter; eauto; congruence.
Qed.

Lemma answered_app evs evs' i o : answered evs i o -> answered (evs ++ evs') i o.
Proof.
  intros (line & msg & Hin & ?). exists line, msg. split; [|done].
  apply elem_of_app. by left.
Qed.

Lemma provenance available evs n i o :
  request_ids evs !! n = Some i ->
  promises (run evs (init available)) !! n = Some (Some o) ->
  answered evs i o \/
  exists lk e, writeLock (run evs (init available)) !! n = Some lk /\
    lk_state lk = Failed e /\ o = Rejected e.
Proof.
  revert n i o. induction evs as [|ev evs IH] using rev_ind; intros n i o Hi Hn.
  { simpl in Hi. by rewrite lookup_nil in Hi. }
  rewrite run_snoc in *. set (σ := run evs (init available)) in *.
  assert (Hc : consistent σ) by apply consistent_run, consistent_init.
  assert (Hids : lk_id <$> writeLock σ = request_ids evs) by apply (run_ids evs (init available)).
  rewrite request_ids_app in Hi.
  apply step_settles in Hn as [Hold|[(line & msg & j & -> & Hparse & Hid & Hj & Hterm)|
                                    (lk & err & Hlk & -> & Hlk')]].
  - assert (Hlt : n < length (request_ids evs)).
    { rewrite <- Hids, length_fmap, <- (promises_links _ Hc). by eapply lookup_lt_Some. }
    rewrite lookup_app_l in Hi by done.
    destruct (IH _ _ _ Hi Hold) as [Hans|(lk & e & Hlk & Hst & ->)].
    + left. by apply answered_app.
    + right. destruct (step_link σ ev n lk Hlk) as (lk' & Hlk' & _ & _ & Hfail).
      exists lk', e. eauto.
  - left. destruct (pending_slot _ Hc _ _ Hj) as (lk & Hlk & Hlkid & _).
    assert (Hn : request_ids evs !! n = Some j).
    { rewrite <- Hids, list_lookup_fmap, Hlk. simpl. by rewrite Hlkid. }
    rewrite (lookup_app_l_Some _ _ _ _ Hn) in Hi. injection Hi as <-.
    exists line, msg. split; [|done]. apply elem_of_app. right. by apply list_elem_of_singleton.
  - right. eexists _, err. split; [done|]. done.
Qed.

(** ** The claims about single lines *)

(** C8. A line that is not valid JSON is discarded by the handler: the state
    of the bridge after the line is the state before it (both tables, the
    promises, the chain), so whatever happens afterwards happens as if the
    line had never arrived. *)
Theorem C8_invalid_line_ignored (line : string) (σ : Sidecar) :
  JSON_parse line = None ->
  handle_line line σ = (Throw SyntaxError, σ) /\
  step σ (Line line) = σ /\
  forall evs, run (Line line :: evs) σ = run evs σ.
Proof.
  intros Hparse.
  assert (Hbody : handle_line line σ = (Throw SyntaxError, σ)).
  { unfold handle_line, parse, mbind, M_bind, bind. by rewrite Hparse. }
  assert (Hstep : step σ (Line line) = σ).
  { simpl. unfold on_line, try_catch. by rewrite Hbody. }
  split; [done|]. split; [done|]. intros evs. simpl in *. by rewrite Hstep.
Qed.

(** C10. A progress handler that throws is caught by the handler of the
    line: the body of the [try] ends with the exception, and the state after
    the line differs from the state before only by the recorded invocation;
    no table entry is removed, no promise settled, and the following lines
    are processed from that state. *)
Theorem C10_throwing_callback_caught
    (line : string) (msg : json) (i : string) (cb : callback) (e : Error) (σ : Sidecar) :
  JSON_parse line = Some msg ->
  progress_shaped msg = true ->
  field msg "id" = Some (JStr i) ->
  progressCallbacks σ !! i = Some cb ->
  cb msg = Throw e ->
  let σ' := with_delivered (fun log => log ++ [(Some (JStr i), msg)]) σ in
  handle_line line σ = (Throw e, σ') /\
  on_line line σ = σ' /\
  pending σ' = pending σ /\
  progressCallbacks σ' = progressCallbacks σ /\
  promises σ' = promises σ /\
  writeLock σ' = writeLock σ /\
  forall evs, run (Line line :: evs) σ = run evs σ'.
Proof.
  intros Hparse Hshape Hid Hcb Hthrow σ'.
  assert (Hnull : msg <> JNull) by (by intros ->).
  assert (Hprop : forall key, prop msg key = ret (field msg key)) by (by destruct msg).
  assert (Hbody : handle_line line σ = (Throw e, σ')).
  { unfold handle_line, parse. rewrite Hparse.
    unfold progress_shaped in Hshape. apply andb_prop in Hshape as [Hev Htruthy].
    unfold mbind, M_bind, andM.
    repeat (unfold bind at 1; rewrite ?Hprop; cbn [ret gets]).
    rewrite Hev. cbn [ret]. rewrite Htruthy, Hid. simpl. rewrite Hcb.
    unfold invoke, mbind, M_bind, bind, modify, lift. by rewrite Hthrow. }
  assert (Hline : on_line line σ = σ').
  { unfold on_line, try_catch. by rewrite Hbody. }
  repeat split; try done. intros evs. simpl. by rewrite Hline.
Qed.

(** C5. An error-shaped message [{id, error}] for a request of the
    correlation table: when the error string is not empty the promise of the
    request is rejected with the classified error and the id is removed from
    both tables, as the claim says; when it is the empty string the handler
    takes no branch, the bridge is exactly as before and the promise of the
    request is still pending. *)
Theorem C5_empty_error_left_pending
    (available : bool) (evs : list event) (line : string) (msg : json)
    (i text : string) (n : nat) :
  let σ := run evs (init available) in
  JSON_parse line = Some msg ->
  error_shaped msg i text ->
  i <> "" ->
  pending σ !! i = Some n ->
  (text <> "" ->
   promises (on_line line σ) !! n = Some (Some (Rejected (createFriendlyError text))) /\
   pending (on_line line σ) !! i = None /\
   progressCallbacks (on_line line σ) !! i = None) /\
  (text = "" ->
   on_line line σ = σ /\
   promises (on_line line σ) !! n = Some None /\
   pending (on_line line σ) !! i = Some n).
Proof.
  intros σ Hparse (Hid & Herr & Hres & Hev) Hi Hn.
  assert (Hc : consistent σ) by apply consistent_run, consistent_init.
  destruct (pending_slot _ Hc _ _ Hn) as (lk & _ & _ & Hpn).
  assert (Hne : forall s, s <> "" -> negb (String.eqb s "") = true).
  { intros s Hs. destruct (String.eqb_spec s ""); done. }
  assert (Hshape : progress_shaped msg = false).
  { unfold progress_shaped.
    destruct (field msg "event") as [[| | |s| |]|]; simpl; try done.
    destruct (String.eqb_spec s "progress"); [by subst|done]. }
  assert (Hnull : msg <> JNull) by (intros ->; done).
  assert (Hline : on_line line σ =
            if negb (String.eqb text "")
            then settled_by (Some (JStr i)) (Rejected (createFriendlyError text)) σ
            else σ).
  { rewrite on_line_unfold, Hparse, Hshape, Hres, Hid, Herr. simpl.
    rewrite (Hne i) by done. rewrite andb_true_r. by destruct msg. }
  rewrite Hline. split.
  - intros Htext. rewrite Hne by done. simpl. rewrite Hn. simpl.
    rewrite !lookup_delete_eq. split; [|done]. by apply settle_pending.
  - intros ->. done.
Qed.

(** ** A rejected link stops the chain *)

(** With a rejected link in the chain no waiting link is chained on a
    fulfilled promise: no write can start. *)
Lemma failed_blocks_write links chunks j lj e k lk :
  chain_ok links chunks ->
  links !! j = Some lj -> lk_state lj = Failed e ->
  links !! k = Some lk -> lk_state lk = Waiting ->
  previous links k <> Some Fulfilled.
Proof.
  intros Hok Hj Hfail Hk Hw Hprev.
  destruct (chain_ok_write _ _ _ _ Hok Hk Hw Hprev) as [Hkm _].
  destruct Hok as [Hpre Hleft Hun Hearly Hbehind].
  destruct (lt_eq_lt_dec j k) as [[Hlt|Heq]|Hgt].
  - destruct k as [|p]; [lia|]. simpl in Hprev.
    destruct (links !! p) as [lp|] eqn:Hp; [|done]. simpl in Hprev.
    destruct (decide (j = p)) as [->|Hne]; [congruence|].
    assert (lk_state lj = Fulfilled) by (eapply Hearly; [done|lia]). congruence.
  - subst. congruence.
  - pose proof (Hbehind _ _ _ _ Hk Hj Hgt Hw). congruence.
Qed.

Lemma step_poisoned σ ev j lj e :
  chain_ok (writeLock σ) (stdin σ) ->
  writeLock σ !! j = Some lj -> lk_state lj = Failed e ->
  stdin (step σ ev) = stdin σ.
Proof.
  intros Hok Hj Hfail. pose proof (step_chain_effect σ ev) as Heff.
  destruct ev as [uuid method params onProgress|line|k|k err|k].
  - rewrite step_call. by destruct (serialise uuid method params), onProgress.
  - simpl. apply on_line_frame.
  - simpl in *. destruct Heff as [|lk Hk Hw Hprev Hp| | | | |]; try done.
    by destruct (failed_blocks_write _ _ _ _ _ _ _ Hok Hj Hfail Hk Hw).
  - simpl in *. destruct Heff as [|lk Hk Hw Hprev Hp| | | | |]; try done.
    by destruct (failed_blocks_write _ _ _ _ _ _ _ Hok Hj Hfail Hk Hw).
  - simpl in *. destruct Heff as [|lk Hk Hw Hprev Hp| | | | |]; try done.
    by destruct (failed_blocks_write _ _ _ _ _ _ _ Hok Hj Hfail Hk Hw).
Qed.

Lemma run_poisoned later σ j lj e :
  chain_ok (writeLock σ) (stdin σ) ->
  writeLock σ !! j = Some lj -> lk_state lj = Failed e ->
  stdin (run later σ) = stdin σ.
Proof.
  revert σ lj. induction later as [|ev later IH]; intros σ lj Hok Hj Hfail; [done|].
  simpl. destruct (step_link σ ev j lj Hj) as (lj' & Hj' & _ & _ & Hkeep).
  rewrite (IH (step σ ev) lj'); [|by apply chain_ok_step|done|by apply Hkeep].
  by eapply step_poisoned.
Qed.

(** ** The claims about failed writes *)

Lemma write_fails_step σ k lk ev err :
  writeLock σ !! k = Some lk -> write_fails σ k lk ev err ->
  step σ ev = reject_link k lk err σ.
Proof.
  intros Hk [Hst Hprev Hp|e Hst]; simpl.
  - unfold reaction. by rewrite Hk, Hst, Hprev, Hp.
  - unfold written. by rewrite Hk, Hst.
Qed.

(** C6. When the write that carries a request fails, the [catch] handler of
    the call removes the request's id from both tables, no key of the
    correlation table is left pointing at the request's promise, and the
    promise is settled: rejected with the write error if it was still
    pending, which it is unless a terminal message carrying the request's id
    arrived before the write failed. *)
Theorem C6_failed_write_rejects
    (available : bool) (evs : list event) (k : nat) (lk : link) (ev : event) (err : Error) :
  let σ := run evs (init available) in
  writeLock σ !! k = Some lk ->
  write_fails σ k lk ev err ->
  pending (step σ ev) !! lk_id lk = None /\
  progressCallbacks (step σ ev) !! lk_id lk = None /\
  (forall j, pending (step σ ev) !! j <> Some k) /\
  (promises σ !! k = Some None ->
   promises (step σ ev) !! k = Some (Some (Rejected err))) /\
  ((forall o, ~ answered evs (lk_id lk) o) -> promises σ !! k = Some None) /\
  (exists o, promises (step σ ev) !! k = Some (Some o)).
Proof.
  intros σ Hk Hfail.
  assert (Hc : consistent σ) by apply consistent_run, consistent_init.
  assert (Hc' : consistent (step σ ev)) by (by apply consistent_step).
  assert (Hlt : k < length (promises σ)).
  { rewrite (promises_links _ Hc). by eapply lookup_lt_Some. }
  assert (Hunanswered : (forall o, ~ answered evs (lk_id lk) o) -> promises σ !! k = Some None).
  { intros Hno. destruct (lookup_lt_is_Some_2 _ _ Hlt) as [[o|] Hp]; [|done].
    assert (Hids : lk_id <$> writeLock σ = request_ids evs)
      by apply (run_ids evs (init available)).
    assert (Hi : request_ids evs !! k = Some (lk_id lk))
      by (by rewrite <- Hids, list_lookup_fmap, Hk).
    destruct (provenance available evs k _ o Hi Hp) as [Hans|(lk' & e & Hlk' & Hst & _)].
    - by destruct (Hno o).
    - unfold σ in Hk. rewrite Hk in Hlk'. injection Hlk' as <-.
      destruct Hfail; congruence. }
  rewrite (write_fails_step _ _ _ _ _ Hk Hfail) in *.
  assert (Hgone : pending (reject_link k lk err σ) !! lk_id lk = None)
    by (simpl; apply lookup_delete_eq).
  split; [done|]. split; [simpl; apply lookup_delete_eq|]. split; [|split; [|split]].
  - intros j Hj. destruct (pending_slot _ Hc' _ _ Hj) as (lk' & Hlk' & Hid & _).
    rewrite (reject_link_state _ _ _ _ Hk) in Hlk'. injection Hlk' as <-.
    simpl in Hid. subst j. congruence.
  - intros Hp. simpl. by apply settle_pending.
  - done.
  - destruct (lookup_lt_is_Some_2 _ _ Hlt) as [[o|] Hp].
    + exists o. simpl. by apply settle_settled.
    + exists (Rejected err). simpl. by apply settle_pending.
Qed.

(** C3. Once the promise of one write is rejected the chain stays rejected:
    in every run, after a link was rejected nothing is passed to
    [stdin.write] any more, whatever calls and events follow.  On a bridge
    with a live process, a call issued after the write of an earlier call
    failed takes over the rejection when its link reacts: its line is never
    written and its promise is rejected with the error of the earlier
    write. *)
Theorem C3_later_call_rejected_unwritten :
  (forall available evs j lj e later,
     writeLock (run evs (init available)) !! j = Some lj ->
     lk_state lj = Failed e ->
     stdin (run later (run evs (init available))) = stdin (run evs (init available))) /\
  (forall (err : Error) uuid1 method1 (params1 : json) onProgress1
          uuid2 method2 (params2 : json) onProgress2,
     let σ := run [Call uuid1 method1 params1 onProgress1; Reaction 0; Written 0 (Some err);
                   Call uuid2 method2 params2 onProgress2; Reaction 1] (init true) in
     stdin σ = [request_line uuid1 method1 params1] /\
     lk_state <$> writeLock σ !! 1 = Some (Failed err) /\
     promises σ !! 1 = Some (Some (Rejected err)) /\
     pending σ !! uuid2 = None).
Proof.
  split.
  - intros available evs j lj e later Hj Hfail.
    eapply run_poisoned; [|done..]. apply chain_ok_run, chain_ok_init.
  - intros err uuid1 method1 params1 onProgress1 uuid2 method2 params2 onProgress2.
    destruct onProgress1, onProgress2; simpl; repeat split; apply lookup_delete_eq.
Qed.

(** ** The claims about all runs *)



(** ** The keys of the progress table *)

Lemma progress_known_weaken ids ids' σ :
  progress_known ids σ -> (forall i, i ∈ ids -> i ∈ ids') -> progress_known ids' σ.
Proof. intros Hk Hsub i cb Hi. destruct (Hk _ _ Hi); auto. Qed.

Lemma progress_known_settled_by ids id o σ :
  progress_known ids σ -> progress_known ids (settled_by id o σ).
Proof.
  intros Hk i cb. unfold settled_by. simpl.
  destruct id as [[| | |j| |]|]; simpl; try apply Hk.
  intros Hi. apply lookup_delete_Some in Hi as [Hne Hi].
  rewrite lookup_delete_ne by done. eauto.
Qed.

Lemma progress_known_reject_link ids k lk err σ :
  progress_known ids σ -> progress_known ids (reject_link k lk err σ).
Proof.
  intros Hk i cb. simpl. intros Hi. apply lookup_delete_Some in Hi as [Hne Hi].
  rewrite lookup_delete_ne by done. eauto.
Qed.

(** A key of the progress table without a key of the correlation table is
    the id of a call that threw after it had registered its handler. *)
Lemma progress_known_step ids σ ev :
  progress_known ids σ -> progress_known (ids ++ thrown [ev]) (step σ ev).
Proof.
  intros Hk. pose proof (step_chain_effect σ ev) as Heff.
  assert (Hk' : progress_known (ids ++ thrown [ev]) σ).
  { eapply progress_known_weaken; [done|]. intros i Hi. apply elem_of_app. by left. }
  destruct ev as [uuid method params onProgress|line|k|k err|k].
  - rewrite step_call, thrown_one. clear Hk'.
    destruct (serialise uuid method params) as [req|e], onProgress as [cb|];
      simpl; intros i cb' Hi; simpl in *.
    + destruct (decide (uuid = i)) as [->|Hne].
      * left. rewrite lookup_insert_eq. eauto.
      * rewrite lookup_insert_ne in Hi by done. rewrite lookup_insert_ne by done.
        destruct (Hk _ _ Hi); [by left|right; apply elem_of_app; by left].
    + destruct (decide (uuid = i)) as [->|Hne].
      * left. rewrite lookup_insert_eq. eauto.
      * rewrite lookup_insert_ne by done.
        destruct (Hk _ _ Hi); [by left|right; apply elem_of_app; by left].
    + destruct (decide (uuid = i)) as [->|Hne].
      * right. apply elem_of_app. right. by left.
      * rewrite lookup_insert_ne in Hi by done.
        destruct (Hk _ _ Hi); [by left|right; apply elem_of_app; by left].
    + destruct (Hk _ _ Hi); [by left|right; apply elem_of_app; by left].
  - simpl. destruct (on_line_effect line σ) as [|msg cb|msg o Hparse Hterm];
      [done|exact Hk'|by apply progress_known_settled_by].
  - simpl in *. destruct Heff; try done; by apply progress_known_reject_link.
  - simpl in *. destruct Heff; try done; by apply progress_known_reject_link.
  - simpl in *. destruct Heff; try done; by apply progress_known_reject_link.
Qed.

Lemma progress_known_run available evs :
  progress_known (thrown evs) (run evs (init available)).
Proof.
  induction evs as [|ev evs IH] using rev_ind.
  - intros i cb Hi. simpl in Hi. by rewrite lookup_empty in Hi.
  - rewrite run_snoc, thrown_app. by apply progress_known_step.
Qed.





(** C9. In every run: a key of the progress table is a key of the
    correlation table or the id of a call that threw in [JSON.stringify]
    after it had registered its handler, so the keys of the progress table
    are keys of the correlation table as long as no such call was made; and
    a key of the correlation table is the id of the request whose pending
    promise it points at, and of no later request.  The failure: after a
    call with a handler on which [JSON.stringify] throws, under an id that
    is not a key of the correlation table, the id is a key of the progress
    table and not of the correlation table. *)
Theorem C9_failed_call_leaves_handler (available : bool) (evs : list event) :
  let σ := run evs (init available) in
  (forall i, i ∈ dom (progressCallbacks σ) ->
     i ∈ dom (pending σ) \/
     exists method err cb, Call i method (Unserialisable err) (Some cb) ∈ evs) /\
  ((forall uuid method err cb, Call uuid method (Unserialisable err) (Some cb) ∉ evs) ->
   dom (progressCallbacks σ) ⊆ dom (pending σ)) /\
  (forall i n, pending σ !! i = Some n ->
     request_ids evs !! n = Some i /\ promises σ !! n = Some None /\
     forall n', request_ids evs !! n' = Some i -> n' <= n) /\
  (forall uuid method err cb,
     pending σ !! uuid = None ->
     let σ' := step σ (Call uuid method (Unserialisable err) (Some cb)) in
     (call uuid method (Unserialisable err) (Some cb) σ).1 = Throw err /\
     uuid ∈ dom (progressCallbacks σ') /\
     (uuid ∉ dom (pending σ')) /\
     ~ (dom (progressCallbacks σ') ⊆ dom (pending σ'))).
Proof.
  intros σ.
  assert (Hc : consistent σ) by apply consistent_run, consistent_init.
  assert (Hids : lk_id <$> writeLock σ = request_ids evs)
    by apply (run_ids evs (init available)).
  assert (Hknown : forall i, i ∈ dom (progressCallbacks σ) ->
            i ∈ dom (pending σ) \/
            exists method err cb, Call i method (Unserialisable err) (Some cb) ∈ evs).
  { intros i Hi. apply elem_of_dom in Hi as [cb Hcb].
    destruct (progress_known_run available evs _ _ Hcb) as [Hp|Hin];
      [|right; by apply thrown_elem].
    left. by apply elem_of_dom. }
  split; [done|]. split; [|split].
  - intros Hnone i Hi. destruct (Hknown _ Hi) as [?|(method & err & cb & Hin)]; [done|].
    by destruct (Hnone i method err cb).
  - intros i n Hn. destruct (pending_slot _ Hc _ _ Hn) as (lk & Hlk & Hid & Hp).
    split; [|split; [done|]].
    + rewrite <- Hids, list_lookup_fmap, Hlk. simpl. by rewrite Hid.
    + intros n'. rewrite <- Hids, list_lookup_fmap.
      destruct (writeLock σ !! n') as [lk'|] eqn:Hlk'; [|done]. intros [= Hid'].
      by eapply (pending_latest _ Hc).
  - intros uuid method err cb Hu σ'.
    assert (Hin : uuid ∈ dom (progressCallbacks σ')).
    { apply elem_of_dom. unfold σ'. simpl. rewrite lookup_insert_eq. eauto. }
    assert (Hout : uuid ∉ dom (pending σ')).
    { apply not_elem_of_dom. exact Hu. }
    split; [done|]. split; [done|]. split; [done|].
    intros Hsub. apply Hout. by apply Hsub.
Qed.

(** ** The claim about the order of writes *)


Lemma chain_ok_started links chunks k lk :
  chain_ok links chunks -> links !! k = Some lk -> started (lk_state lk) ->
  chunks !! k = Some (lk_data lk) /\
  forall j lj, j < k -> links !! j = Some lj -> lk_state lj = Fulfilled.
Proof.
  intros [Hpre Hleft Hun Hearly _] Hk Hst.
  assert (Hlt : k < length chunks).
  { destruct (decide (length chunks <= k)) as [Hle|?]; [|lia].
    destruct (Hun _ _ Hk Hle) as [Hw|[e He]];
      destruct Hst as [?|[?|?]]; congruence. }
  split.
  - destruct Hpre as [rest Hrest].
    assert (Hd : (lk_data <$> links) !! k = Some (lk_data lk))
      by (by rewrite list_lookup_fmap, Hk).
    by rewrite Hrest, lookup_app_l in Hd.
  - intros j lj Hjk Hj. eapply Hearly; [done|lia].
Qed.



Lemma run_burst_waiting cs σ :
  Forall (fun lk => lk_state lk = Waiting) (writeLock σ) ->
  Forall (fun lk => lk_state lk = Waiting) (writeLock (run (burst cs) σ)).
Proof.
  revert σ. induction cs as [|c cs IH]; intros σ Hall; [done|].
  simpl. apply IH. destruct c as [[[uuid method] params] [cb|]]; simpl;
    (apply Forall_app; split; [done|by repeat constructor]).
Qed.

Lemma run_proc_available evs σ : proc_available (run evs σ) = proc_available σ.
Proof.
  revert σ. induction evs as [|ev evs IH]; intros σ; [done|].
  simpl. by rewrite IH, step_proc_available.
Qed.





End Facts.

(** ** The worker binary *)

Lemma first_existing_skip existsSync (earlier rest : list string) :
  Forall (fun q => existsSync q <> Normal true) earlier ->
  first_existing existsSync (earlier ++ rest) = first_existing existsSync rest.
Proof.
  induction 1 as [|q earlier Hq _ IH]; [done|]. simpl.
  destruct (existsSync q) as [[|]|e]; done.
Qed.

Lemma first_existing_found existsSync (paths : list string) p :
  first_existing existsSync paths = Some p ->
  exists earlier later, paths = earlier ++ p :: later /\
    Forall (fun q => existsSync q <> Normal true) earlier /\
    existsSync p = Normal true.
Proof.
  induction paths as [|q paths IH]; [done|]. simpl.
  destruct (existsSync q) as [[|]|e] eqn:Hq.
  - intros [= <-]. by exists [], paths.
  - intros Hp. destruct (IH Hp) as (earlier & later & -> & Hearlier & Hex).
    exists (q :: earlier), later. repeat split; [|done].
    constructor; [congruence|done].
  - intros Hp. destruct (IH Hp) as (earlier & later & -> & Hearlier & Hex).
    exists (q :: earlier), later. repeat split; [|done].
    constructor; [congruence|done].
Qed.

Lemma first_existing_none existsSync (paths : list string) :
  first_existing existsSync paths = None <->
  Forall (fun q => existsSync q <> Normal true) paths.
Proof.
  induction paths as [|q paths IH]; simpl; [done|].
  destruct (existsSync q) as [[|]|e] eqn:Hq.
  - split; [done|]. intros Hall. by apply Forall_cons_1 in Hall as [? _].
  - rewrite IH. split; [intros ?; constructor; [congruence|done]|]. intros Hall. by apply Forall_cons_1 in Hall as [_ ?].
  - rewrite IH. split; [intros ?; constructor; [congruence|done]|]. intros Hall. by apply Forall_cons_1 in Hall as [_ ?].
Qed.

(** X1. The binary that [start] launches is the first candidate, in list
    order, whose probe returns true: candidates before it that do not exist,
    or whose probe throws, are passed over, and candidates after it are not
    considered. *)
Theorem binPath_first_existing
    (existsSync : string -> completion bool) (paths earlier later : list string)
    (p : string) :
  paths = earlier ++ p :: later ->
  Forall (fun q => existsSync q <> Normal true) earlier ->
  existsSync p = Normal true ->
  binPath existsSync paths = Some p.
Proof.
  intros -> Hearlier Hp. unfold binPath.
  rewrite first_existing_skip by done. simpl. by rewrite Hp.
Qed.

(** X2. On the six candidates of [start] the choice is always defined and
    is one of the candidates: it exists, or else no candidate exists and the
    choice is the first candidate, the binary next to the packaged
    resources. *)
Theorem binPath_of_candidates
    (path_resolve : list string -> string) (existsSync : string -> completion bool)
    (platform : string) (resourcesPath : option string) (dirname : string) :
  let paths := possiblePaths path_resolve platform resourcesPath dirname in
  exists p, binPath existsSync paths = Some p /\ p ∈ paths /\
    (existsSync p = Normal true \/
     (Forall (fun q => existsSync q <> Normal true) paths /\
      p = path_resolve [resources_dir resourcesPath dirname; binName platform])).
Proof.
  intros paths. unfold binPath.
  destruct (first_existing existsSync paths) as [p|] eqn:Hfound.
  - destruct (first_existing_found _ _ _ Hfound) as (earlier & later & Hpaths & _ & Hex).
    exists p. split; [done|]. split; [|by left].
    rewrite Hpaths. apply elem_of_app. right. by left.
  - apply first_existing_none in Hfound. eexists. split; [done|].
    split; [by left|]. by right.
Qed.

(** ** More about single lines *)

Section Further.
Context `{Builtins}.

Lemma truthy_text i : i <> "" -> truthy (Some (JStr i)) = true.
Proof. intros Hi. simpl. by destruct (String.eqb_spec i ""). Qed.

Lemma progress_shaped_not_null msg : progress_shaped msg = true -> msg <> JNull.
Proof. by intros Hs ->. Qed.

(** [on_line] on a message that is not [null]. *)
Lemma on_line_message line msg σ :
  JSON_parse line = Some msg -> msg <> JNull ->
  on_line line σ =
    if progress_shaped msg then
      match map_get (progressCallbacks σ) (field msg "id") with
      | Some cb => with_delivered (fun log => log ++ [(field msg "id", msg)]) σ
      | None => σ
      end
    else if defined (field msg "result") && truthy (field msg "id") then
      settled_by (field msg "id") (Resolved (field msg "result")) σ
    else if truthy (field msg "error") && truthy (field msg "id") then
      match call_createFriendlyError (field msg "error") with
      | Normal e => settled_by (field msg "id") (Rejected e) σ
      | Throw _ => σ
      end
    else σ.
Proof. intros Hparse Hnull. rewrite on_line_unfold, Hparse. by destruct msg. Qed.

(** X3. A result message for a request of the correlation table resolves
    the promise of that request with the result, whatever the result is
    ([null] included) and whether or not the message also has an [error]
    member, and removes the id from both tables; the write chain, the
    stream and the record of handler invocations are untouched. *)
Theorem result_message_resolves
    (available : bool) (evs : list event) (line : string) (msg v : json)
    (i : string) (n : nat) :
  let σ := run evs (init available) in
  JSON_parse line = Some msg ->
  progress_shaped msg = false ->
  field msg "result" = Some v ->
  field msg "id" = Some (JStr i) ->
  i <> "" ->
  pending σ !! i = Some n ->
  promises (on_line line σ) !! n = Some (Some (Resolved (Some v))) /\
  pending (on_line line σ) !! i = None /\
  progressCallbacks (on_line line σ) !! i = None /\
  writeLock (on_line line σ) = writeLock σ /\
  stdin (on_line line σ) = stdin σ /\
  delivered (on_line line σ) = delivered σ.
Proof.
  intros σ Hparse Hshape Hres Hid Hi Hn.
  assert (Hc : consistent σ) by apply consistent_run, consistent_init.
  destruct (pending_slot _ Hc _ _ Hn) as (lk & _ & _ & Hpn).
  assert (Hnull : msg <> JNull) by (intros ->; done).
  rewrite (on_line_message _ _ _ Hparse Hnull), Hshape, Hres, Hid.
  rewrite truthy_text by done. simpl. rewrite Hn. simpl.
  rewrite !lookup_delete_eq. repeat split. by apply settle_pending.
Qed.

Lemma settled_by_absent id o σ :
  map_get (pending σ) id = None -> map_get (progressCallbacks σ) id = None ->
  settled_by id o σ = σ.
Proof.
  intros Hp Hc. unfold settled_by. rewrite Hp. destruct σ; simpl in *.
  unfold with_progressCallbacks, with_pending, with_promises; simpl.
  destruct id as [[| | |i| |]|]; simpl in *; try done.
  by rewrite !delete_id.
Qed.

(** X4. A message whose id is a key of neither table, be it of progress,
    result or error shape, changes nothing at all, in any state: late and
    duplicate deliveries are dropped.  In a run it is enough that the id is
    not a key of the correlation table and not the id of a call with a
    handler on which [JSON.stringify] threw. *)
Theorem unknown_id_dropped (line : string) (msg : json) :
  JSON_parse line = Some msg ->
  (forall σ,
     map_get (pending σ) (field msg "id") = None ->
     map_get (progressCallbacks σ) (field msg "id") = None ->
     on_line line σ = σ) /\
  (forall available evs,
     let σ := run evs (init available) in
     (forall i method err cb, field msg "id" = Some (JStr i) ->
        Call i method (Unserialisable err) (Some cb) ∉ evs) ->
     map_get (pending σ) (field msg "id") = None ->
     on_line line σ = σ).
Proof.
  intros Hparse.
  assert (Hany : forall σ,
            map_get (pending σ) (field msg "id") = None ->
            map_get (progressCallbacks σ) (field msg "id") = None ->
            on_line line σ = σ).
  { intros σ Hid Hcb. rewrite on_line_unfold, Hparse. destruct msg; try done;
      rewrite Hcb;
      repeat match goal with
             | |- context [if ?b then _ else _] => destruct b
             | |- context [match call_createFriendlyError ?e with _ => _ end] =>
                 destruct (call_createFriendlyError e)
             end; try done; by apply settled_by_absent. }
  split; [done|]. intros available evs σ Hthrown Hid. apply Hany; [done|].
  subst σ. destruct (field msg "id") as [[| | |i| |]|]; simpl in *; try done.
  destruct (progressCallbacks (run evs (init available)) !! i) as [cb|] eqn:Hcb; [|done].
  destruct (progress_known_run available evs _ _ Hcb) as [[n Hn]|Hin]; [congruence|].
  apply thrown_elem in Hin as (method & err & cb' & Hin).
  by destruct (Hthrown i method err cb').
Qed.

Lemma settled_by_twice id o σ :
  settled_by id o (settled_by id o σ) = settled_by id o σ.
Proof.
  unfold settled_by. destruct σ; simpl.
  unfold with_progressCallbacks, with_pending, with_promises; simpl.
  destruct id as [[| | |i| |]|]; simpl; try done.
  by rewrite lookup_delete_eq, !delete_delete_eq.
Qed.

(** X5. Handling a line whose message is not of progress shape a second
    time changes nothing: a terminal message delivered twice settles and
    removes once. *)
Theorem terminal_line_twice (line : string) (σ : Sidecar) :
  (forall msg, JSON_parse line = Some msg -> progress_shaped msg = false) ->
  on_line line (on_line line σ) = on_line line σ.
Proof.
  intros Hshape. rewrite !on_line_unfold.
  destruct (JSON_parse line) as [msg|] eqn:Hparse; [|done].
  specialize (Hshape _ eq_refl).
  destruct msg; try done; rewrite Hshape;
    repeat match goal with
           | |- context [if ?b then _ else _] => destruct b
           | |- context [match call_createFriendlyError ?e with _ => _ end] =>
               destruct (call_createFriendlyError e)
           end; try done; apply settled_by_twice.
Qed.

(** X6. A message of progress shape never settles or removes anything, even
    when it also has a [result] or an [error] member: both tables, the
    promises, the chain and the stream stay as they are, and the handler
    registered under the id, if there is one, is invoked exactly once with
    the whole message. *)
Theorem progress_message_only_delivers (line : string) (msg : json) (σ : Sidecar) :
  JSON_parse line = Some msg ->
  progress_shaped msg = true ->
  pending (on_line line σ) = pending σ /\
  progressCallbacks (on_line line σ) = progressCallbacks σ /\
  promises (on_line line σ) = promises σ /\
  writeLock (on_line line σ) = writeLock σ /\
  stdin (on_line line σ) = stdin σ /\
  delivered (on_line line σ) =
    match map_get (progressCallbacks σ) (field msg "id") with
    | Some _ => delivered σ ++ [(field msg "id", msg)]
    | None => delivered σ
    end.
Proof.
  intros Hparse Hshape.
  rewrite (on_line_message _ _ _ Hparse (progress_shaped_not_null _ Hshape)), Hshape.
  by destruct (map_get (progressCallbacks σ) (field msg "id")).
Qed.

(** X7. An error message whose [error] member is not text (a number, a
    boolean, an object, [null]) rejects nothing: classification throws
    inside the handler (or the member is falsy), the exception is swallowed
    and the bridge is left exactly as it was, the request still pending. *)
Theorem untyped_error_ignored (line : string) (msg e : json) (σ : Sidecar) :
  JSON_parse line = Some msg ->
  progress_shaped msg = false ->
  field msg "result" = None ->
  field msg "error" = Some e ->
  no_includes e ->
  on_line line σ = σ.
Proof.
  intros Hparse Hshape Hres Herr He.
  assert (Hnull : msg <> JNull) by (intros ->; done).
  rewrite (on_line_message _ _ _ Hparse Hnull), Hshape, Hres, Herr. simpl.
  destruct e; try done; simpl;
    repeat match goal with
           | |- context [if ?b then _ else _] => destruct b
           end; done.
Qed.

(** X8. A call with a progress handler, then a progress message and a
    result message for its id: the handler is invoked once with the progress
    message, the promise that the call returned is resolved with the result,
    neither table holds the id any more, and nothing was written to the
    stream by any of this. *)
Theorem call_progress_result
    (σ : Sidecar) (uuid method : string) (params : json) (cb : callback)
    (line_p line_r : string) (msg_p msg_r v : json) :
  uuid <> "" ->
  JSON_parse line_p = Some msg_p ->
  progress_shaped msg_p = true ->
  field msg_p "id" = Some (JStr uuid) ->
  JSON_parse line_r = Some msg_r ->
  progress_shaped msg_r = false ->
  field msg_r "result" = Some v ->
  field msg_r "id" = Some (JStr uuid) ->
  let σ' := run [Call uuid method params (Some cb); Line line_p; Line line_r] σ in
  exists p, (call uuid method params (Some cb) σ).1 = Normal p /\
  promises σ' !! p = Some (Some (Resolved (Some v))) /\
  delivered σ' = delivered σ ++ [(Some (JStr uuid), msg_p)] /\
  pending σ' !! uuid = None /\
  progressCallbacks σ' !! uuid = None /\
  stdin σ' = stdin σ.
Proof.
  intros Hu Hpp Hsp Hidp Hpr Hsr Hres Hidr σ'.
  exists (length (promises σ)). split; [done|].
  unfold σ'.
  change (run [Call uuid method params (Some cb); Line line_p; Line line_r] σ)
    with (on_line line_r (on_line line_p (call uuid method params (Some cb) σ).2)).
  set (σ1 := (call uuid method params (Some cb) σ).2).
  assert (Hσ1p : progressCallbacks σ1 !! uuid = Some cb) by (simpl; apply lookup_insert_eq).
  rewrite (on_line_message _ _ σ1 Hpp (progress_shaped_not_null _ Hsp)), Hsp, Hidp.
  change (map_get (progressCallbacks σ1) (Some (JStr uuid)))
    with (progressCallbacks σ1 !! uuid).
  rewrite Hσ1p.
  assert (Hnull : msg_r <> JNull) by (intros ->; done).
  rewrite (on_line_message _ _ _ Hpr Hnull), Hsr, Hres, Hidr.
  rewrite truthy_text by done. simpl.
  rewrite !lookup_insert_eq, !lookup_delete_eq. simpl. repeat split.
  apply settle_pending. by apply list_lookup_middle.
Qed.

(** ** More about the write chain *)

Lemma chain_ok_in_flight links chunks k lk :
  chain_ok links chunks -> links !! k = Some lk -> in_flight (lk_state lk) ->
  length chunks = S k.
Proof.
  intros [Hpre Hleft Hun Hearly _] Hk Hst.
  destruct (decide (length chunks <= k)) as [Hle|Hgt].
  { destruct (Hun _ _ Hk Hle) as [?|[e ?]]; destruct Hst; congruence. }
  destruct (decide (S k < length chunks)) as [Hlt|?]; [|lia].
  specialize (Hearly _ _ Hk Hlt). destruct Hst; congruence.
Qed.

(** X9. The lock: in every run at most one write is under way.  While the
    write of a link is under way its line is the last chunk on the stream,
    the writes of all earlier calls are complete, no other link has a write
    under way, and the links of all later calls are still waiting (or were
    rejected without a write). *)
Theorem one_write_at_a_time
    (available : bool) (evs : list event) (k : nat) (lk : link) :
  let σ := run evs (init available) in
  writeLock σ !! k = Some lk ->
  in_flight (lk_state lk) ->
  length (stdin σ) = S k /\
  stdin σ !! k = Some (lk_data lk) /\
  (forall j lj, writeLock σ !! j = Some lj -> in_flight (lk_state lj) -> j = k) /\
  (forall j lj, writeLock σ !! j = Some lj -> j < k -> lk_state lj = Fulfilled) /\
  (forall j lj, writeLock σ !! j = Some lj -> k < j ->
     lk_state lj = Waiting \/ exists e, lk_state lj = Failed e).
Proof.
  intros σ Hk Hst.
  assert (Hok : chain_ok (writeLock σ) (stdin σ)) by apply chain_ok_run, chain_ok_init.
  pose proof (chain_ok_in_flight _ _ _ _ Hok Hk Hst) as Hlen.
  assert (Hstarted : started (lk_state lk)).
  { destruct Hst as [?|?]; [by left|right; by left]. }
  destruct (chain_ok_started _ _ _ _ Hok Hk Hstarted) as [Hchunk Hearlier].
  split; [done|]. split; [done|]. split; [|split].
  - intros j lj Hj Hstj.
    pose proof (chain_ok_in_flight _ _ _ _ Hok Hj Hstj). lia.
  - intros j lj Hj Hlt. by eapply Hearlier.
  - intros j lj Hj Hlt. eapply (unwritten_waiting _ _ Hok); [done|lia].
Qed.

Lemma idle_chain_reject k lk σ :
  idle_chain σ -> writeLock σ !! k = Some lk ->
  idle_chain (reject_link k lk not_available σ).
Proof.
  intros (Hp & Hin & Hall) Hk. split; [done|]. split; [done|]. simpl.
  intros n ln. rewrite lookup_set_state.
  destruct (writeLock σ !! n) as [l0|] eqn:Hn; [|done]. intros [= <-].
  case_decide; simpl; [by right|by eapply Hall].
Qed.

Lemma idle_chain_step σ ev : idle_chain σ -> idle_chain (step σ ev).
Proof.
  intros Hidle. pose proof Hidle as (Hp & Hin & Hall).
  pose proof (step_chain_effect σ ev) as Heff.
  assert (Hchain : forall k σ', chain_effect k σ σ' -> idle_chain σ').
  { intros k σ' [|lk Hk Hw Hprev Hp'|lk Hk Hw Hprev Hp'|lk err Hk Hw Hprev
                 |lk err Hk Hw|lk Hk Hw|lk Hk Hw]; try done; try congruence.
    - by apply idle_chain_reject.
    - destruct k as [|j]; [done|]. simpl in Hprev.
      destruct (writeLock σ !! j) as [lj|] eqn:Hj; [|done]. simpl in Hprev.
      destruct (Hall _ _ Hj) as [Hs|Hs]; rewrite Hs in Hprev; [done|].
      injection Hprev as <-. by apply idle_chain_reject.
    - destruct (Hall _ _ Hk); congruence.
    - destruct (Hall _ _ Hk); congruence.
    - destruct (Hall _ _ Hk); congruence. }
  destruct ev as [uuid method params onProgress|line|k|k err|k]; eauto.
  - rewrite step_call.
    destruct (serialise uuid method params), onProgress; try done;
      (split; [done|]; split; [done|]); simpl;
      intros k lk Hk;
      (apply lookup_app_Some in Hk as [Hk|[_ Hk]]; [by eapply Hall|];
       apply list_lookup_singleton_Some in Hk as [_ <-]; by left).
  - simpl. destruct (on_line_frame line σ) as (Hw & Hs & Hpa).
    split; [congruence|]. split; [congruence|]. by rewrite Hw.
Qed.

Lemma idle_chain_run evs σ : idle_chain σ -> idle_chain (run evs σ).
Proof.
  revert σ. induction evs as [|ev evs IH]; intros σ Hidle; [done|].
  simpl. apply IH. by apply idle_chain_step.
Qed.

Lemma idle_chain_init : idle_chain (init false).
Proof. split; [done|]. split; [done|]. intros k lk Hk. simpl in Hk. by rewrite lookup_nil in Hk. Qed.

(** X10. A bridge without a process never passes anything to
    [stdin.write], whatever is called and whatever arrives; every link of
    its chain is waiting or was rejected with the error [Sidecar process not
    available]. *)
Theorem without_process_nothing_written (evs : list event) :
  let σ := run evs (init false) in
  stdin σ = [] /\
  forall k lk, writeLock σ !! k = Some lk ->
    lk_state lk = Waiting \/ lk_state lk = Failed not_available.
Proof.
  intros σ. destruct (idle_chain_run evs _ idle_chain_init) as (_ & Hin & Hall). done.
Qed.

Lemma run_burst_promises cs σ :
  promises (run (burst cs) σ) = promises σ ++ replicate (length cs) None.
Proof.
  revert σ. induction cs as [|c cs IH]; intros σ; simpl; [by rewrite app_nil_r|].
  rewrite IH. destruct c as [[[uuid method] params] [cb|]]; simpl;
    by rewrite <- app_assoc.
Qed.

Lemma react_all_S n : react_all (S n) = react_all n ++ [Reaction n].
Proof. unfold react_all. by rewrite seq_S, map_app. Qed.

Lemma thrown_burst cs n : thrown (burst cs ++ react_all n) = [].
Proof.
  rewrite thrown_app.
  assert (Hb : thrown (burst cs) = []).
  { induction cs as [|[[[uuid method] params] [cb|]] cs IH]; done. }
  assert (Hr : thrown (react_all n) = []).
  { unfold react_all. induction (seq 0 n) as [|k ks IH]; done. }
  by rewrite Hb, Hr.
Qed.

(** After the first [j] links of a waiting chain have reacted without a
    process, they are rejected, and so are the promises of their calls. *)
Lemma run_react_all j σ :
  proc_available σ = false ->
  Forall (fun lk => lk_state lk = Waiting) (writeLock σ) ->
  Forall (fun p => p = None) (promises σ) ->
  length (promises σ) = length (writeLock σ) ->
  j <= length (writeLock σ) ->
  let σ' := run (react_all j) σ in
  proc_available σ' = false /\
  length (writeLock σ') = length (writeLock σ) /\
  length (promises σ') = length (promises σ) /\
  (forall k lk, writeLock σ' !! k = Some lk ->
     lk_state lk = if decide (k < j) then Failed not_available else Waiting) /\
  (forall k p, promises σ' !! k = Some p ->
     p = if decide (k < j) then Some (Rejected not_available) else None).
Proof.
  intros Hp Hall Hnone Hlen. induction j as [|j IH]; intros Hj σ'.
  - unfold σ'. simpl. split; [done|]. split; [done|]. split; [done|]. split.
    + intros k lk Hk. rewrite Forall_lookup in Hall. by apply (Hall k).
    + intros k p Hk. rewrite Forall_lookup in Hnone. by apply (Hnone k).
  - destruct IH as (Hp' & Hlinks & Hproms & Hst & Hpr); [lia|].
    unfold σ'. rewrite react_all_S, run_app.
    set (σj := run (react_all j) σ) in *.
    destruct (lookup_lt_is_Some_2 (writeLock σj) j) as [lk Hlk]; [lia|].
    assert (Hw : lk_state lk = Waiting).
    { rewrite (Hst _ _ Hlk). by rewrite decide_False by lia. }
    assert (Hstep : run [Reaction j] σj = reject_link j lk not_available σj).
    { unfold run. simpl. unfold reaction. rewrite Hlk, Hw.
      destruct j as [|j']; simpl.
      - by rewrite Hp'.
      - destruct (lookup_lt_is_Some_2 (writeLock σj) j') as [lk' Hlk']; [lia|].
        rewrite Hlk'. simpl. rewrite (Hst _ _ Hlk'). by rewrite decide_True by lia. }
    rewrite Hstep. split; [done|]. simpl.
    split; [by rewrite length_alter|]. split; [by rewrite length_settle|]. split.
    + intros k lk'. rewrite lookup_set_state.
      destruct (writeLock σj !! k) as [lk0|] eqn:Hk; [|done]. intros [= <-].
      specialize (Hst _ _ Hk). destruct (decide (j = k)) as [->|Hjk]; simpl.
      * by rewrite decide_True by lia.
      * rewrite Hst. repeat case_decide; try done; lia.
    + intros k p Hk. destruct (decide (j = k)) as [->|Hjk].
      * rewrite decide_True by lia.
        destruct (lookup_lt_is_Some_2 (promises σj) k) as [q Hq]; [lia|].
        pose proof (Hpr _ _ Hq) as Hqv. rewrite decide_False in Hqv by lia. subst q.
        rewrite (settle_pending _ _ _ Hq) in Hk. congruence.
      * rewrite settle_lookup_ne in Hk by done. rewrite (Hpr _ _ Hk).
        repeat case_decide; try done; lia.
Qed.

(** X11. Without a process calls fail fast: after any burst of calls, once
    their links have reacted in order, the promise of every call is rejected
    with [Sidecar process not available], both tables are empty and nothing
    was written. *)
Theorem without_process_calls_rejected
    (cs : list (string * string * json * option callback)) :
  let σ := run (burst cs ++ react_all (length cs)) (init false) in
  promises σ = replicate (length cs) (Some (Rejected not_available)) /\
  pending σ = ∅ /\
  progressCallbacks σ = ∅ /\
  stdin σ = [].
Proof.
  intros σ.
  assert (Hc : consistent σ) by apply consistent_run, consistent_init.
  assert (Hknown : progress_known [] σ).
  { rewrite <- (thrown_burst cs (length cs)). apply progress_known_run. }
  destruct (idle_chain_run (burst cs ++ react_all (length cs)) _ idle_chain_init)
    as (_ & Hin & _).
  unfold σ in *. rewrite run_app in *. set (σ0 := run (burst cs) (init false)) in *.
  assert (Hproms : promises σ0 = replicate (length cs) None).
  { unfold σ0. by rewrite run_burst_promises. }
  assert (Hlen : length (writeLock σ0) = length cs).
  { rewrite <- (promises_links σ0), Hproms, length_replicate; [done|].
    apply consistent_run, consistent_init. }
  destruct (run_react_all (length cs) σ0) as (_ & Hlinks & Hplen & _ & Hpr).
  - apply run_proc_available.
  - by apply run_burst_waiting.
  - rewrite Hproms. by apply Forall_replicate.
  - by rewrite Hproms, length_replicate.
  - lia.
  - assert (Hall : promises (run (react_all (length cs)) σ0)
                   = replicate (length cs) (Some (Rejected not_available))).
    { apply list_eq. intros k.
      destruct (decide (k < length cs)) as [Hlt|Hge].
      - rewrite lookup_replicate_2 by done.
        destruct (lookup_lt_is_Some_2 (promises (run (react_all (length cs)) σ0)) k)
          as [p Hp]; [rewrite Hplen, Hproms, length_replicate; lia|].
        rewrite Hp, (Hpr _ _ Hp). by rewrite decide_True.
      - rewrite (proj2 (lookup_ge_None (replicate _ _) k))
          by (rewrite length_replicate; lia).
        apply lookup_ge_None. rewrite Hplen, Hproms, length_replicate. lia. }
    assert (Hempty : pending (run (react_all (length cs)) σ0) = ∅).
    { apply map_empty. intros i.
      destruct (pending (run (react_all (length cs)) σ0) !! i) as [n|] eqn:Hi; [|done].
      destruct (pending_slot _ Hc _ _ Hi) as (lk & _ & _ & Hpn).
      rewrite Hall in Hpn. apply lookup_replicate in Hpn as [? _]. done. }
    split; [done|]. split; [done|]. split; [|done].
    apply map_empty. intros i.
    destruct (progressCallbacks (run (react_all (length cs)) σ0) !! i) as [cb|] eqn:Hi;
      [|done].
    destruct (Hknown _ _ Hi) as [[n Hn]|Hnil]; [|by apply elem_of_nil in Hnil].
    rewrite Hempty in Hn. by rewrite lookup_empty in Hn.
Qed.
End Further.

(** ** More about classification *)

Lemma kind_name_inj k k' : kind_name k = kind_name k' -> k = k'.
Proof. destruct k, k'; simpl; intros Heq; try reflexivity; discriminate Heq. Qed.

(** For a text of a known kind the friendly error is a fixed one. *)
Lemma known_code_taxonomy (s s' : string) :
  classify code_taxonomy s = classify code_taxonomy s' ->
  classify code_taxonomy s <> Unknown ->
  createFriendlyError s = createFriendlyError s'.
Proof.
  unfold createFriendlyError, friendly, code_taxonomy, classify, triggered, existsb.
  repeat match goal with
         | |- context [includes ?t s] =>
             generalize (includes t s); intros [|]; cbn [orb]
         end;
  repeat match goal with
         | |- context [includes ?t s'] =>
             generalize (includes t s'); intros [|]; cbn [orb]
         end;
  intros Hk Hn; try discriminate Hk; try reflexivity; by destruct Hn.
Qed.

(** X12. Two error texts of the worker get the same friendly error exactly
    when they are of the same kind and, if that kind is unknown, are the same
    text: for a known kind nothing of the worker's text reaches the caller,
    for an unknown one the text can be read back from the message. *)
Theorem friendly_errors_equal (s s' : string) :
  createFriendlyError s = createFriendlyError s' <->
  classify code_taxonomy s = classify code_taxonomy s' /\
  (classify code_taxonomy s = Unknown -> s = s').
Proof.
  split.
  - intros Heq.
    assert (Hk : classify code_taxonomy s = classify code_taxonomy s').
    { apply kind_name_inj. by rewrite <- !name_code_taxonomy, Heq. }
    split; [done|]. intros Hu.
    rewrite (unknown_code_taxonomy s Hu) in Heq.
    rewrite (unknown_code_taxonomy s') in Heq by congruence.
    simpl in Heq. by injection Heq.
  - intros [Hk Hu].
    assert (classify code_taxonomy s = Unknown \/ classify code_taxonomy s <> Unknown)
      as [Hunk|Hknown] by (destruct (classify code_taxonomy s); auto; right; discriminate).
    + by rewrite (Hu Hunk).
    + by apply known_code_taxonomy.
Qed.

Lemma append_cons x (a b : string) : String x a +:+ b = String x (a +:+ b).
Proof. reflexivity. Qed.

Lemma append_assoc (a b c : string) : (a +:+ b) +:+ c = a +:+ (b +:+ c).
Proof.
  induction a as [|x a IH]; [done|]. rewrite !append_cons. by rewrite IH.
Qed.

Lemma includes_cons (needle : string) c (s : string) :
  includes needle (String c s) = String.prefix needle (String c s) || includes needle s.
Proof. reflexivity. Qed.

Lemma prefix_app (a rest : string) : String.prefix a (a +:+ rest) = true.
Proof.
  induction a as [|c a IH]; [by destruct rest|].
  rewrite append_cons. simpl. destruct (Ascii.ascii_dec c c); [done|congruence].
Qed.

Lemma prefix_split (a s : string) :
  String.prefix a s = true -> exists rest, s = a +:+ rest.
Proof.
  revert s. induction a as [|c a IH]; intros s Hp; [by exists s|].
  destruct s as [|d s]; [done|]. simpl in Hp.
  destruct (Ascii.ascii_dec c d) as [->|]; [|done].
  destruct (IH _ Hp) as [rest ->]. by exists rest.
Qed.

Lemma includes_skip (b a t : string) :
  includes b t = true -> includes b (a +:+ t) = true.
Proof.
  intros Ht. induction a as [|c a IH]; [done|].
  rewrite append_cons, includes_cons, IH. apply orb_true_r.
Qed.

Lemma includes_here (b rest : string) : includes b (b +:+ rest) = true.
Proof.
  assert (Hp := prefix_app b rest).
  destruct (b +:+ rest); simpl in *; by rewrite Hp.
Qed.

(** A text that includes [a +:+ b] includes [b]. *)
Lemma includes_tail (a b s : string) :
  includes (a +:+ b) s = true -> includes b s = true.
Proof.
  induction s as [|c s IH].
  - intros Hp. by destruct a, b.
  - rewrite !includes_cons. intros Hor. apply orb_prop in Hor as [Hp|Hin].
    + destruct (prefix_split _ _ Hp) as [rest Hs].
      rewrite <- includes_cons, Hs, append_assoc.
      apply includes_skip, includes_here.
    + rewrite (IH Hin). apply orb_true_r.
Qed.

Lemma trigger_subsumed (a b s : string) :
  includes (a +:+ b) s || (includes b s || false) = includes b s || false.
Proof.
  destruct (includes (a +:+ b) s) eqn:Hab; [|done].
  by rewrite (includes_tail _ _ _ Hab).
Qed.

(** X13. The tests for [401 Unauthorized] and [insufficient_quota] never
    decide a classification: each text that includes one of them includes
    the other trigger of its row ([Unauthorized], [quota]), so the
    classification is the first-match rule over the table without the
    two. *)
Theorem classification_short_table (s : string) :
  name (createFriendlyError s) = kind_name (classify short_taxonomy s).
Proof.
  rewrite name_code_taxonomy. f_equal.
  unfold code_taxonomy, short_taxonomy, classify, triggered, existsb.
  assert (H1 : includes "401 Unauthorized" s || (includes "Unauthorized" s || false)
               = includes "Unauthorized" s || false)
    by apply (trigger_subsumed "401 " "Unauthorized").
  assert (H2 : includes "insufficient_quota" s || (includes "quota" s || false)
               = includes "quota" s || false)
    by apply (trigger_subsumed "insufficient_" "quota").
  by rewrite H1, H2.
Qed.

(** ** The toast for an error of the bridge *)

Lemma toast_by_kind (e : Error) (count : nat) (k : ErrorKind) :
  name e = kind_name k ->
  showErrorToast e count =
    showErrorToast {| name := kind_name k; message := message e |} count.
Proof. intros Hn. unfold showErrorToast. simpl. by rewrite Hn. Qed.

Lemma toast_known (e e' : Error) (count count' : nat) (k : ErrorKind) :
  name e = kind_name k -> name e' = kind_name k -> k <> Unknown ->
  showErrorToast e count = showErrorToast e' count'.
Proof.
  intros Hn Hn' Hk. rewrite (toast_by_kind e count k Hn), (toast_by_kind e' count' k Hn').
  by destruct k.
Qed.

Lemma toast_title_kind (e e' : Error) (count count' : nat) (k k' : ErrorKind) :
  name e = kind_name k -> name e' = kind_name k' -> k <> Unknown ->
  title (showErrorToast e' count') = title (showErrorToast e count) -> k' = k.
Proof.
  intros Hn Hn' Hk. rewrite (toast_by_kind e count k Hn), (toast_by_kind e' count' k' Hn').
  destruct k; try done; destruct k'; try reflexivity;
    unfold showErrorToast; simpl; try discriminate;
    destruct (Nat.ltb 1 count'); simpl; discriminate.
Qed.

(** X14. [showErrorToast] on the error object that [createFriendlyError]
    builds: every kind except the unknown one has a toast of its own, which
    depends on the kind only (not on the worker's text, not on the number of
    videos), and toasts of different kinds have different titles.  An unknown
    error gets the general toast, which shows the friendly message with the
    worker's text. *)
Theorem toast_of_friendly_error (s : string) (count : nat) :
  (classify code_taxonomy s <> Unknown ->
   (forall s' count',
      classify code_taxonomy s' = classify code_taxonomy s ->
      showErrorToast (createFriendlyError s') count'
        = showErrorToast (createFriendlyError s) count) /\
   (forall s' count',
      title (showErrorToast (createFriendlyError s') count')
        = title (showErrorToast (createFriendlyError s) count) ->
      classify code_taxonomy s' = classify code_taxonomy s)) /\
  (classify code_taxonomy s = Unknown ->
   showErrorToast (createFriendlyError s) count =
     {| level := toast_error;
        title := "❌ Error" +:+
                 (if Nat.ltb 1 count then " (" +:+ pretty count +:+ " videos)" else "");
        description := "An error occurred: " +:+ s;
        action := None |}).
Proof.
  split.
  - intros Hk. split.
    + intros s' count' Hs'.
      apply (toast_known _ _ _ _ (classify code_taxonomy s)); [|apply name_code_taxonomy|done].
      by rewrite name_code_taxonomy, Hs'.
    + intros s' count'.
      apply (toast_title_kind _ _ _ _ _ _ (name_code_taxonomy s) (name_code_taxonomy s') Hk).
  - intros Hu. by rewrite (unknown_code_taxonomy s Hu).
Qed.

(** ** The report of failed requests *)

Lemma remove_dups_same (x : string) (l : list string) :
  l <> [] -> Forall (fun y => y = x) l -> remove_dups l = [x].
Proof.
  intros Hne Hall.
  assert (Hx : forall y, y ∈ remove_dups l -> y = x).
  { intros y Hy. rewrite elem_of_remove_dups in Hy.
    apply list_elem_of_lookup in Hy as [n Hn].
    rewrite Forall_lookup in Hall. exact (Hall n y Hn). }
  assert (Hin : x ∈ remove_dups l).
  { apply elem_of_remove_dups. destruct l as [|y l]; [done|].
    apply Forall_cons_1 in Hall as [-> _]. by left. }
  pose proof (NoDup_remove_dups l) as Hnd.
  destruct (remove_dups l) as [|y [|z r]].
  - by apply elem_of_nil in Hin.
  - f_equal. apply Hx. by left.
  - exfalso. apply NoDup_cons in Hnd as [Hy _].
    assert (y = x) as -> by (apply Hx; by left).
    assert (z = x) as -> by (apply Hx; right; by left).
    apply Hy. by left.
Qed.

Lemma remove_dups_two (a b : string) (l : list string) :
  a ∈ l -> b ∈ l -> a <> b -> length (remove_dups l) <> 1.
Proof.
  intros Ha Hb Hab Hlen. apply elem_of_remove_dups in Ha, Hb.
  destruct (remove_dups l) as [|x [|y r]]; simpl in Hlen; try lia.
  apply list_elem_of_singleton in Ha, Hb. congruence.
Qed.

(** X15. The report of failed requests: nothing is shown when nothing
    failed; when all failures have the same name the toast is the one of the
    first failure, with the number of failures, so of several unknown errors
    only the first text is shown; when two failures have different names the
    general toast for mixed errors is shown. *)
Theorem report_failures_cases (e : Error) (rest : list Error) :
  report_failures [] = None /\
  (Forall (fun e' => name_or_unknown e' = name_or_unknown e) rest ->
   report_failures (e :: rest) = Some (showErrorToast e (S (length rest)))) /\
  (Exists (fun e' => name_or_unknown e' <> name_or_unknown e) rest ->
   report_failures (e :: rest) = Some (mixed_errors_toast (S (length rest)))).
Proof.
  split; [done|]. split.
  - intros Hall. unfold report_failures.
    change (Nat.ltb 0 (length (e :: rest))) with true. cbv iota zeta.
    rewrite (remove_dups_same (name_or_unknown e) (map name_or_unknown (e :: rest)));
      [reflexivity|discriminate|].
    simpl. constructor; [reflexivity|]. by apply Forall_fmap.
  - intros Hex. unfold report_failures.
    change (Nat.ltb 0 (length (e :: rest))) with true. cbv iota zeta.
    apply Exists_exists in Hex as (e' & Hin & Hne).
    destruct (Nat.eqb_spec (length (remove_dups (map name_or_unknown (e :: rest)))) 1)
      as [Hlen|_]; [|reflexivity].
    exfalso. revert Hlen.
    apply (remove_dups_two (name_or_unknown e') (name_or_unknown e)); [| |done].
    + simpl. right. by apply list_elem_of_fmap_2.
    + simpl. by left.
Qed.

(** ** The claims at sample inputs *)

(** C4, as stated, fails: the specification's trigger for a missing native
    library occurs in the text, no earlier trigger does, and the code's
    classification is [UNKNOWN_ERROR]. *)
Lemma C4_spec_trigger_unknown :
  classify spec_taxonomy "Library not loaded: libavcodec.59.dylib" = NativeDependencyMissing /\
  name (createFriendlyError "Library not loaded: libavcodec.59.dylib") = "UNKNOWN_ERROR" /\
  name (createFriendlyError "Library not loaded: libavcodec.59.dylib")
    <> kind_name (classify spec_taxonomy "Library not loaded: libavcodec.59.dylib").
Proof. vm_compute. repeat split. discriminate. Qed.

Lemma C4_witness :
  name (createFriendlyError "dyld: Library not loaded: libavcodec.59.dylib")
    = "BINARY_DEP_MISSING" /\
  createFriendlyError "segmentation fault"
    = {| name := "UNKNOWN_ERROR"; message := "An error occurred: segmentation fault" |}.
Proof.
  split.
  - apply (proj1 (proj2 (C4_classification_first_match
                           "dyld: Library not loaded: libavcodec.59.dylib"))
             (take 8 code_taxonomy) NativeDependencyMissing
             ["dyld: Library not loaded"; "image not found"] []).
    + reflexivity.
    + repeat constructor.
    + reflexivity.
  - apply (proj2 (proj2 (C4_classification_first_match "segmentation fault"))).
    repeat constructor.
Defined.

#[local] Existing Instance sample_runtime.




Lemma C3_witness :
  let evs := [Call "X" "transcribe" JNull None; Reaction 0; Written 0 (Some EPIPE)] in
  let later := [Call "Y" "transcribe" JNull None; Reaction 1; Written 1 None; Flushed 1;
                Reaction 1] in
  stdin (run later (run evs (init true))) = stdin (run evs (init true)).
Proof.
  intros evs later.
  apply (proj1 C3_later_call_rejected_unwritten true evs 0
           {| lk_id := "X"; lk_data := request_line "X" "transcribe" JNull;
              lk_state := Failed EPIPE |} EPIPE later); reflexivity.
Defined.

Lemma C5_witness :
  (let σ := run [Call "Y" "transcribe" JNull None; Reaction 0] (init true) in
   promises (on_line line_error_Y σ) !! 0
     = Some (Some (Rejected (createFriendlyError "401 Unauthorized"))) /\
   pending (on_line line_error_Y σ) !! "Y" = None /\
   progressCallbacks (on_line line_error_Y σ) !! "Y" = None) /\
  (let σ := run [Call "X" "transcribe" JNull None; Reaction 0] (init true) in
   on_line line_empty_error_X σ = σ /\
   promises (on_line line_empty_error_X σ) !! 0 = Some None /\
   pending (on_line line_empty_error_X σ) !! "X" = Some 0).
Proof.
  split; intros σ.
  - destruct (C5_empty_error_left_pending true
                [Call "Y" "transcribe" JNull None; Reaction 0]
                line_error_Y msg_error_Y "Y" "401 Unauthorized" 0) as [Hrejects _].
    + reflexivity.
    + repeat split; discriminate.
    + discriminate.
    + reflexivity.
    + apply Hrejects. discriminate.
  - destruct (C5_empty_error_left_pending true
                [Call "X" "transcribe" JNull None; Reaction 0]
                line_empty_error_X msg_empty_error_X "X" "" 0) as [_ Hignored].
    + reflexivity.
    + repeat split; discriminate.
    + discriminate.
    + reflexivity.
    + apply Hignored. reflexivity.
Defined.

Lemma C6_witness :
  let σ := run [Call "X" "transcribe" JNull (Some quiet_handler); Reaction 0] (init true) in
  let σ' := step σ (Written 0 (Some EPIPE)) in
  pending σ' !! "X" = None /\
  progressCallbacks σ' !! "X" = None /\
  promises σ' !! 0 = Some (Some (Rejected EPIPE)).
Proof.
  intros σ σ'.
  destruct (C6_failed_write_rejects true
              [Call "X" "transcribe" JNull (Some quiet_handler); Reaction 0] 0
              {| lk_id := "X"; lk_data := request_line "X" "transcribe" JNull;
                 lk_state := Writing |}
              (Written 0 (Some EPIPE)) EPIPE)
    as (Hpending & Hprogress & _ & Hrejected & _).
  - reflexivity.
  - by apply fails_on_stream.
  - split; [exact Hpending|]. split; [exact Hprogress|]. apply Hrejected. reflexivity.
Defined.



Lemma C8_witness :
  let σ := run [Call "X" "transcribe" JNull None; Reaction 0] (init true) in
  handle_line line_noise σ = (Throw SyntaxError, σ) /\
  step σ (Line line_noise) = σ /\
  forall evs, run (Line line_noise :: evs) σ = run evs σ.
Proof.
  intros σ. apply (C8_invalid_line_ignored line_noise σ). reflexivity.
Defined.

Lemma C9_witness :
  (let evs := [Call "X" "transcribe" JNull (Some quiet_handler);
               Call "Y" "transcribe" JNull None; Reaction 0] in
   request_ids evs !! 1 = Some "Y" /\
   promises (run evs (init true)) !! 1 = Some None /\
   forall n', request_ids evs !! n' = Some "Y" -> n' <= 1) /\
  (let σ' := step (init true)
               (Call "X" "transcribe" (Unserialisable TypeError) (Some quiet_handler)) in
   (call "X" "transcribe" (Unserialisable TypeError) (Some quiet_handler) (init true)).1
     = Throw TypeError /\
   "X" ∈ dom (progressCallbacks σ') /\
   ("X" ∉ dom (pending σ')) /\
   ~ (dom (progressCallbacks σ') ⊆ dom (pending σ'))).
Proof.
  split.
  - intros evs.
    apply (proj1 (proj2 (proj2 (C9_failed_call_leaves_handler true evs))) "Y" 1).
    reflexivity.
  - intros σ'.
    apply (proj2 (proj2 (proj2 (C9_failed_call_leaves_handler true [])))
             "X" "transcribe" TypeError quiet_handler).
    reflexivity.
Defined.

Lemma C10_witness :
  let σ := run [Call "X" "transcribe" JNull (Some failing_handler); Reaction 0] (init true) in
  let σ' := with_delivered (fun log => log ++ [(Some (JStr "X"), msg_progress_X)]) σ in
  handle_line line_progress_X σ
    = (Throw {| name := "Error"; message := "render failed" |}, σ') /\
  on_line line_progress_X σ = σ' /\
  pending σ' = pending σ /\
  progressCallbacks σ' = progressCallbacks σ /\
  promises σ' = promises σ /\
  writeLock σ' = writeLock σ /\
  forall evs, run (Line line_progress_X :: evs) σ = run evs σ'.
Proof.
  intros σ σ'.
  apply (C10_throwing_callback_caught line_progress_X msg_progress_X "X"
           failing_handler {| name := "Error"; message := "render failed" |} σ);
    reflexivity.
Defined.

(** ** The further properties at sample inputs *)

Lemma binPath_first_existing_witness :
  binPath sample_existsSync
    ["/opt/capslap/core"; "/opt/capslap/app.asar.unpacked/resources/core";
     "/src/rust/target/debug/core"; "/opt/capslap/resources/core"]
    = Some "/src/rust/target/debug/core".
Proof.
  apply (binPath_first_existing sample_existsSync _
           ["/opt/capslap/core"; "/opt/capslap/app.asar.unpacked/resources/core"]
           ["/opt/capslap/resources/core"] "/src/rust/target/debug/core").
  - reflexivity.
  - repeat constructor; discriminate.
  - reflexivity.
Defined.

Lemma result_message_resolves_witness :
  let σ := run [Call "X" "transcribe" JNull (Some quiet_handler); Reaction 0] (init true) in
  promises (on_line line_result_X σ) !! 0
    = Some (Some (Resolved (Some (JObj [("text", JStr "hello")])))) /\
  pending (on_line line_result_X σ) !! "X" = None /\
  progressCallbacks (on_line line_result_X σ) !! "X" = None /\
  writeLock (on_line line_result_X σ) = writeLock σ /\
  stdin (on_line line_result_X σ) = stdin σ /\
  delivered (on_line line_result_X σ) = delivered σ.
Proof.
  intros σ.
  apply (result_message_resolves true
           [Call "X" "transcribe" JNull (Some quiet_handler); Reaction 0]
           line_result_X msg_result_X (JObj [("text", JStr "hello")]) "X" 0);
    try reflexivity; discriminate.
Defined.

Lemma unknown_id_dropped_witness :
  let σ := run [Call "X" "transcribe" JNull None; Reaction 0] (init true) in
  on_line line_error_Y σ = σ.
Proof.
  intros σ.
  destruct (unknown_id_dropped line_error_Y msg_error_Y) as [_ Hrun]; [reflexivity|].
  apply (Hrun true [Call "X" "transcribe" JNull None; Reaction 0]).
  - intros i method err cb _ Hin.
    repeat (apply elem_of_cons in Hin as [Hin|Hin]; [discriminate|]).
    by apply elem_of_nil in Hin.
  - reflexivity.
Defined.

Lemma terminal_line_twice_witness :
  let σ := run [Call "X" "transcribe" JNull None; Reaction 0] (init true) in
  on_line line_result_X (on_line line_result_X σ) = on_line line_result_X σ.
Proof.
  intros σ. apply (terminal_line_twice line_result_X σ).
  intros msg [= <-]. reflexivity.
Defined.

Lemma progress_message_only_delivers_witness :
  let σ := run [Call "X" "transcribe" JNull (Some quiet_handler)] (init true) in
  pending (on_line line_progress_X σ) = pending σ /\
  progressCallbacks (on_line line_progress_X σ) = progressCallbacks σ /\
  promises (on_line line_progress_X σ) = promises σ /\
  writeLock (on_line line_progress_X σ) = writeLock σ /\
  stdin (on_line line_progress_X σ) = stdin σ /\
  delivered (on_line line_progress_X σ) = [(Some (JStr "X"), msg_progress_X)].
Proof.
  intros σ.
  apply (progress_message_only_delivers line_progress_X msg_progress_X σ); reflexivity.
Defined.

Lemma untyped_error_ignored_witness :
  let σ := @run demo_runtime [Call "X" "transcribe" JNull None; Reaction 0]
             (init true) in
  pending σ !! "X" = Some 0 /\
  @on_line demo_runtime line_object_error_X σ = σ.
Proof.
  intros σ. split; [reflexivity|].
  apply (@untyped_error_ignored demo_runtime line_object_error_X msg_object_error_X
           (JObj [("code", JStr "500")]) σ);
    [reflexivity|reflexivity|reflexivity|reflexivity|exact I].
Defined.

Lemma call_progress_result_witness :
  let σ' := run [Call "X" "transcribe" JNull (Some quiet_handler);
                 Line line_progress_X; Line line_result_X] (init true) in
  exists p,
    (call "X" "transcribe" JNull (Some quiet_handler) (init true)).1 = Normal p /\
    promises σ' !! p = Some (Some (Resolved (Some (JObj [("text", JStr "hello")])))) /\
    delivered σ' = [(Some (JStr "X"), msg_progress_X)] /\
    pending σ' !! "X" = None /\
    progressCallbacks σ' !! "X" = None /\
    stdin σ' = [].
Proof.
  intros σ'.
  apply (call_progress_result (init true) "X" "transcribe" JNull quiet_handler
           line_progress_X line_result_X msg_progress_X msg_result_X
           (JObj [("text", JStr "hello")])); try reflexivity; discriminate.
Defined.

Lemma one_write_at_a_time_witness :
  let σ := run [Call "X" "transcribe" JNull None; Call "Y" "transcribe" JNull None;
                Reaction 0] (init true) in
  length (stdin σ) = 1 /\
  stdin σ !! 0 = Some (sample_request "X" +:+ LF) /\
  (forall j lj, writeLock σ !! j = Some lj -> in_flight (lk_state lj) -> j = 0) /\
  (forall j lj, writeLock σ !! j = Some lj -> j < 0 -> lk_state lj = Fulfilled) /\
  (forall j lj, writeLock σ !! j = Some lj -> 0 < j ->
     lk_state lj = Waiting \/ exists e, lk_state lj = Failed e).
Proof.
  intros σ.
  apply (one_write_at_a_time true
           [Call "X" "transcribe" JNull None; Call "Y" "transcribe" JNull None; Reaction 0]
           0 {| lk_id := "X"; lk_data := sample_request "X" +:+ LF; lk_state := Writing |}).
  - reflexivity.
  - by left.
Defined.

Lemma friendly_errors_equal_witness :
  createFriendlyError "quota" = createFriendlyError "insufficient_quota: check your plan".
Proof.
  apply (proj2 (friendly_errors_equal "quota" "insufficient_quota: check your plan")).
  split; [reflexivity|]. intros Hunknown. discriminate Hunknown.
Defined.

Lemma toast_of_friendly_error_witness :
  showErrorToast (createFriendlyError "429 Too Many Requests") 3
    = showErrorToast (createFriendlyError "rate limit reached") 1.
Proof.
  apply (proj1 (toast_of_friendly_error "rate limit reached" 1)).
  - discriminate.
  - reflexivity.
Defined.

Lemma report_failures_cases_witness :
  report_failures [createFriendlyError "boom"; createFriendlyError "bang"]
    = Some (showErrorToast (createFriendlyError "boom") 2) /\
  report_failures [createFriendlyError "boom"; createFriendlyError "quota"]
    = Some (mixed_errors_toast 2).
Proof.
  split.
  - apply (proj1 (proj2 (report_failures_cases (createFriendlyError "boom")
                           [createFriendlyError "bang"]))).
    repeat constructor.
  - apply (proj2 (proj2 (report_failures_cases (createFriendlyError "boom")
                           [createFriendlyError "quota"]))).
    apply Exists_cons_hd. discriminate.
Defined.
